(** * Dead Exports Scanner: a shallow embedding of [src/index.ts]

    The analysis core of the scanner is three functions:
    - [getExports]: the export extractor (a global regular-expression match
      over a file's text, then [split(' ')] on every match);
    - [isImported]: the import detector (one regular expression built from
      the exported name);
    - [getFilesWithDeadExports]: the all-pairs cross-reference engine, with a
      plain JavaScript object for the counters and a [Map] for the report.

    JavaScript strings are sequences of UTF-16 code units; the expressions of
    the source carry no [u] flag, so they work code unit by code unit. *)

From Stdlib Require Import String Ascii List NArith Arith Bool Lia Sorted.
Import ListNotations.

(* ================================================================== *)
(** ** Strings *)

Module JsString.

(** A code unit, and a string as the sequence of its code units. *)
Definition char := N.
Definition str := list char.

Definition char_eqb (a b : char) : bool := N.eqb a b.

Fixpoint str_eqb (a b : str) : bool :=
  match a, b with
  | [], [] => true
  | x :: a', y :: b' => char_eqb x y && str_eqb a' b'
  | _, _ => false
  end.

(** ASCII literals of the source text. *)
Fixpoint lit (s : string) : str :=
  match s with
  | EmptyString => []
  | String a s' => N_of_ascii a :: lit s'
  end.

Definition SPACE : char := 32%N.
Definition TAB : char := 9%N.
Definition LF : char := 10%N.

(** [String.prototype.split] with a one-code-unit separator: the pieces
    between the separators, empty pieces kept; never an empty array. *)
Fixpoint split (sep : char) (s : str) : list str :=
  match s with
  | [] => [[]]
  | c :: s' =>
      if char_eqb c sep then [] :: split sep s'
      else match split sep s' with
           | w :: ws => (c :: w) :: ws
           | [] => [[c]]
           end
  end.

(** [Array.prototype.at]. *)
Definition at_ {A} (l : list A) (i : nat) : option A := nth_error l i.

End JsString.
Import JsString.

(* ================================================================== *)
(** ** Regular expressions, as ECMAScript matches them *)

Module RegExp.

(** The fragment of the pattern language the two patterns of the source
    use: single-character atoms ([\s], [\w], [.], a literal character),
    sequence, alternation [|] and the greedy quantifier [+].  Groups only
    capture; nothing refers back to them. *)
Inductive regex : Type :=
| Eps : regex
| Chr : (char -> bool) -> regex
| Seq : regex -> regex -> regex
| Alt : regex -> regex -> regex
| Plus : regex -> regex.

(** Character classes (ECMAScript, no [u] or [i] flag).  The line
    terminators are LF, CR, U+2028 and U+2029. *)
Definition is_line_terminator (c : char) : bool :=
  (c =? 10)%N || (c =? 13)%N || (c =? 8232)%N || (c =? 8233)%N.

(** [.] *)
Definition dot (c : char) : bool := negb (is_line_terminator c).

(** [\w] : [A-Za-z0-9_] *)
Definition word (c : char) : bool :=
  ((97 <=? c) && (c <=? 122))%N || ((65 <=? c) && (c <=? 90))%N
  || ((48 <=? c) && (c <=? 57))%N || (c =? 95)%N.

(** [\s] : WhiteSpace and LineTerminator, that is TAB, LF, VT, FF, CR,
    space, U+00A0, U+1680, U+2000 to U+200A, U+2028, U+2029, U+202F,
    U+205F, U+3000 and U+FEFF. *)
Definition white (c : char) : bool :=
  ((9 <=? c) && (c <=? 13))%N || (c =? 32)%N || (c =? 160)%N
  || (c =? 5760)%N || ((8192 <=? c) && (c <=? 8202))%N
  || (c =? 8232)%N || (c =? 8233)%N || (c =? 8239)%N || (c =? 8287)%N
  || (c =? 12288)%N || (c =? 65279)%N.

(** A literal run of characters. *)
Fixpoint Str (s : str) : regex :=
  match s with
  | [] => Eps
  | c :: s' => Seq (Chr (char_eqb c)) (Str s')
  end.

(** The counted quantifier [{n}]. *)
Fixpoint Rep (n : nat) (r : regex) : regex :=
  match n with
  | O => Eps
  | S n' => Seq r (Rep n' r)
  end.

(** SyntaxCharacter: what is not matched literally when a string is
    spliced into a pattern. *)
Definition syntax_character (c : char) : bool :=
  existsb (char_eqb c) (lit "^$\.*+?()[]{}|").

(** A matcher state is the input that is left; a continuation decides
    the rest of the pattern and returns the input left at the end of the
    whole match. *)
Definition cont := str -> option str.
Definition matcher := str -> cont -> option str.

(** The iterations of a greedy quantifier after its minimum is reached
    (RepeatMatcher with min = 0, max = infinity): one more iteration is
    tried first, an iteration that consumes nothing is rejected, and
    the continuation is the fallback.  [fuel] bounds the number of
    iterations by the length of the input left. *)
Fixpoint more (m : matcher) (fuel : nat) (x : str) (c : cont) : option str :=
  match fuel with
  | O => c x
  | S fuel' =>
      match m x (fun y => if length y <? length x
                          then more m fuel' y c else None) with
      | Some z => Some z
      | None => c x
      end
  end.

(** The backtracking matcher of a pattern. *)
Fixpoint compile (r : regex) : matcher :=
  fun x c =>
    match r with
    | Eps => c x
    | Chr p => match x with
               | ch :: x' => if p ch then c x' else None
               | [] => None
               end
    | Seq r1 r2 => compile r1 x (fun y => compile r2 y c)
    | Alt r1 r2 => match compile r1 x c with
                   | Some z => Some z
                   | None => compile r2 x c
                   end
    | Plus r1 => compile r1 x (fun y => more (compile r1) (length y) y c)
    end.

(** A match anchored at the start of [x]: the matched text and the rest. *)
Definition match_at (r : regex) (x : str) : option (str * str) :=
  match compile r x (fun y => Some y) with
  | Some rest => Some (firstn (length x - length rest) x, rest)
  | None => None
  end.

(** [RegExp.prototype.exec] from the current position: the leftmost
    match. *)
Fixpoint exec (r : regex) (x : str) : option (str * str) :=
  match match_at r x with
  | Some mr => Some mr
  | None => match x with
            | [] => None
            | _ :: x' => exec r x'
            end
  end.

(** The loop of [String.prototype.match] for a pattern with the [g]
    flag: every match from left to right, the next search starting
    where the last match ended (one further after an empty match). *)
Fixpoint match_loop (fuel : nat) (r : regex) (x : str) : list str :=
  match fuel with
  | O => []
  | S fuel' =>
      match exec r x with
      | None => []
      | Some (w, rest) =>
          w :: match w, rest with
               | [], [] => []
               | [], _ :: rest' => match_loop fuel' r rest'
               | _ :: _, _ => match_loop fuel' r rest
               end
      end
  end.

(** [contents.match(re)], [re] global: [null] when nothing matches. *)
Definition match_g (r : regex) (x : str) : option (list str) :=
  match match_loop (S (length x)) r x with
  | [] => None
  | l => Some l
  end.

End RegExp.
Import RegExp.

(* ================================================================== *)
(** ** The export extractor *)

(** [/export\s+(const|let|var|class|interface|type|enum|default async function|default function|function|default)\s+(\w+)/g] *)
Definition export_keywords : list string :=
  ["const"; "let"; "var"; "class"; "interface"; "type"; "enum";
   "default async function"; "default function"; "function"; "default"]%string.

Definition alternatives (l : list string) : regex :=
  match l with
  | [] => Eps
  | k :: ks => fold_left (fun r k' => Alt r (Str (lit k'))) ks (Str (lit k))
  end.

Definition export_pattern : regex :=
  Seq (Str (lit "export"))
 (Seq (Plus (Chr white))
 (Seq (alternatives export_keywords)
 (Seq (Plus (Chr white))
      (Plus (Chr word))))).

Record FileDetails : Type := mkFile {
  path : str;
  contents : str;
  exports : list str
}.

(** The reducer of [getExports]: the last piece of [statement.split(' ')],
    dropped when it is missing or empty. *)
Definition export_name (list_ : list str) (statement : str) : list str :=
  let split_ := split SPACE statement in
  if Nat.eqb (length split_) 0 then list_
  else match at_ split_ (length split_ - 1) with
       | None => list_
       | Some [] => list_
       | Some res => list_ ++ [res]
       end.

(** The exports of one file's text. *)
Definition extract (contents_ : str) : list str :=
  let exportsStatements := match_g export_pattern contents_ in
  let validMatches := match exportsStatements with
                      | Some l => l
                      | None => []
                      end in
  fold_left export_name validMatches [].

(** [getExports]: [fs] is what [fs.readFile(file, 'utf-8')] resolves to, or
    [None] when the read is rejected, which rejects the whole call. *)
Fixpoint getExports_loop (fs : str -> option str) (files : list str)
    (fileExports : list FileDetails) : option (list FileDetails) :=
  match files with
  | [] => Some fileExports
  | file :: files' =>
      match fs file with
      | None => None
      | Some contents_ =>
          getExports_loop fs files'
            (fileExports ++ [mkFile file contents_ (extract contents_)])
      end
  end.

Definition getExports (fs : str -> option str) (files : list str)
    : option (list FileDetails) :=
  getExports_loop fs files [].

(* ================================================================== *)
(** ** The import detector *)

(** [new RegExp(`import{1}(.|\n)+(${exportName})+(.|\n)+from.+`, 'gm')].
    The name is spliced into the pattern text; a name without syntax
    characters (see [pattern_literal]) stands for itself there, and the names
    that [getExports] produces are of that kind.  The [m] flag only changes
    [^] and [$], which the pattern does not use. *)
Definition any_or_newline : regex := Alt (Chr dot) (Chr (char_eqb LF)).

Definition import_pattern (exportName : str) : regex :=
  Seq (Str (lit "impor"))
 (Seq (Rep 1 (Chr (char_eqb (N_of_ascii "t"))))
 (Seq (Plus any_or_newline)
 (Seq (Plus (Str exportName))
 (Seq (Plus any_or_newline)
 (Seq (Str (lit "from"))
      (Plus (Chr dot))))))).

Definition pattern_literal (name : str) : bool :=
  forallb (fun c => negb (syntax_character c)) name.

Definition isImported (exportName contents_ : str) : bool :=
  match match_g (import_pattern exportName) contents_ with
  | None => false
  | Some importStatements => 0 <? length importStatements
  end.

(* ================================================================== *)
(** ** The counters: a plain JavaScript object *)

Module JsObject.

(** The value of a counter: a number, [NaN] included. *)
Inductive number : Type :=
| Num : N -> number
| NaN : number.

(** [count > 0] *)
Definition gt0 (v : number) : bool :=
  match v with
  | Num n => (0 <? n)%N
  | NaN => false
  end.

(** [v++] stores [v + 1]; [undefined + 1] is [NaN]. *)
Definition succ (v : option number) : number :=
  match v with
  | Some (Num n) => Num (n + 1)
  | Some NaN => NaN
  | None => NaN
  end.

(** The value of a run of decimal digits. *)
Fixpoint digits (k : str) (acc : N) : option N :=
  match k with
  | [] => Some acc
  | c :: k' =>
      if ((48 <=? c) && (c <=? 57))%N
      then digits k' (acc * 10 + (c - 48))%N
      else None
  end.

(** An array index: the canonical decimal text of an integer below
    [2^32 - 1].  Own property keys that are array indices are listed
    first, in ascending numeric order; the other keys follow in the
    order of their creation. *)
Definition array_index (k : str) : option N :=
  match k with
  | [] => None
  | c :: k' =>
      if (c =? 48)%N && negb (Nat.eqb (length k') 0) then None
      else match digits k 0 with
           | Some i => if (i <? 4294967295)%N then Some i else None
           | None => None
           end
  end.

(** An object with string keys, as the list of its own properties in the
    order [Object.entries] lists them. *)
Definition object := list (str * number).

Definition empty : object := [].

(** [o[k]] on the own properties of [o], [None] for [undefined].  The
    engine only reads the counters at keys they own. *)
Fixpoint get (o : object) (k : str) : option number :=
  match o with
  | [] => None
  | (k', v) :: o' => if str_eqb k k' then Some v else get o' k
  end.

(** An assignment to an own property keeps its place in the order. *)
Fixpoint replace (o : object) (k : str) (v : number) : object :=
  match o with
  | [] => []
  | (k', v') :: o' =>
      if str_eqb k k' then (k', v) :: o' else (k', v') :: replace o' k v
  end.

(** A new array-index key goes before the first key that is not an array
    index or is a larger one. *)
Fixpoint create_index (o : object) (i : N) (k : str) (v : number) : object :=
  match o with
  | [] => [(k, v)]
  | (k', v') :: o' =>
      match array_index k' with
      | Some j => if (j <? i)%N then (k', v') :: create_index o' i k v
                  else (k, v) :: o
      | None => (k, v) :: o
      end
  end.

Definition create (o : object) (k : str) (v : number) : object :=
  match array_index k with
  | Some i => create_index o i k v
  | None => o ++ [(k, v)]
  end.

(** [o[k] = v] *)
Definition set (o : object) (k : str) (v : number) : object :=
  match get o k with
  | Some _ => replace o k v
  | None => create o k v
  end.

(** [{ ...o }] : the own properties of [o], copied in order into a new
    object. *)
Definition spread (o : object) : object :=
  fold_left (fun o' kv => set o' (fst kv) (snd kv)) o empty.

(** [o[k]++] *)
Definition incr (o : object) (k : str) : object := set o k (succ (get o k)).

(** [Object.entries(o)] *)
Definition entries (o : object) : list (str * number) := o.

Definition keys (o : object) : list str := map fst o.

End JsObject.
Import JsObject.

(* ================================================================== *)
(** ** The report: a [Map] keyed by file record *)

Module JsMap.

(** [getExports] pushes a new object literal for every path, so the
    records of the list it returns are pairwise distinct objects: the
    identity of a record ([===], the key of the [Map]) is its position in
    the list. *)
Definition ident := nat.

(** The entries in insertion order. *)
Definition t := list (ident * list str).

Definition empty : t := [].

(** [Map.prototype.get] *)
Fixpoint get (m : t) (k : ident) : option (list str) :=
  match m with
  | [] => None
  | (k', v) :: m' => if Nat.eqb k k' then Some v else get m' k
  end.

(** [Map.prototype.set]; also what [push] on the array of an entry does
    to the map, with the longer array as [v]. *)
Fixpoint set (m : t) (k : ident) (v : list str) : t :=
  match m with
  | [] => [(k, v)]
  | (k', v') :: m' =>
      if Nat.eqb k k' then (k', v) :: m' else (k', v') :: set m' k v
  end.

Definition size (m : t) : nat := length m.

End JsMap.

(* ================================================================== *)
(** ** The cross-reference engine *)

Definition FileWithDeadExports := JsMap.t.

(** The elements of an array with their positions. *)
Definition indexed {A} (l : list A) : list (nat * A) :=
  combine (seq 0 (length l)) l.

(** [fileA.exports.reduce((map, exp) => ({ ...map, [exp]: 0 }), {})] *)
Definition initCounts (exports_ : list str) : object :=
  fold_left (fun map_ exp => JsObject.set (spread map_) exp (Num 0))
            exports_ JsObject.empty.

(** The loop over the exports of file A against one file B. *)
Definition scanFile (exportsA : list str) (contentsB : str)
    (importCounts : object) : object :=
  fold_left (fun counts exp =>
               if isImported exp contentsB then incr counts exp else counts)
            exportsA importCounts.

(** The loop over every file B; [fileA === fileB] is the equality of
    the positions. *)
Definition scanFiles (a : JsMap.ident) (fileA : FileDetails)
    (files : list FileDetails) (importCounts : object) : object :=
  fold_left (fun counts jb =>
               if Nat.eqb a (fst jb) then counts
               else scanFile (exports fileA) (contents (snd jb)) counts)
            (indexed files) importCounts.

(** The loop over [Object.entries(importCounts)]. *)
Definition collectDead (a : JsMap.ident) (importCounts : object)
    (filesWithDeadExports : FileWithDeadExports) : FileWithDeadExports :=
  fold_left (fun report ec =>
               if gt0 (snd ec) then report
               else match JsMap.get report a with
                    | Some existingEntry =>
                        JsMap.set report a (existingEntry ++ [fst ec])
                    | None => JsMap.set report a [fst ec]
                    end)
            (entries importCounts) filesWithDeadExports.

(** The final counters of file A. *)
Definition importCountsOf (a : JsMap.ident) (fileA : FileDetails)
    (files : list FileDetails) : object :=
  scanFiles a fileA files (initCounts (exports fileA)).

(** The loop over every file A: its counters, then its dead names. *)
Definition getFilesWithDeadExports (files : list FileDetails)
    : FileWithDeadExports :=
  fold_left (fun report ia =>
               collectDead (fst ia) (importCountsOf (fst ia) (snd ia) files)
                           report)
            (indexed files) JsMap.empty.

(** The pipeline of [main] after the directory walk. *)
Definition analyse (fs : str -> option str) (paths : list str)
    : option FileWithDeadExports :=
  match getExports fs paths with
  | Some filesWithExports => Some (getFilesWithDeadExports filesWithExports)
  | None => None
  end.

(* ================================================================== *)
(** * The vocabulary of the properties *)

(** ** Words of a pattern *)

(** Equality of strings is decidable: occurrences can be counted. *)
Definition str_eq_dec (a b : str) : {a = b} + {a <> b} :=
  list_eq_dec N.eq_dec a b.

(** The words a pattern denotes. *)
Inductive lang : regex -> str -> Prop :=
| lang_eps : lang Eps []
| lang_chr p c : p c = true -> lang (Chr p) [c]
| lang_seq r1 r2 w1 w2 :
    lang r1 w1 -> lang r2 w2 -> lang (Seq r1 r2) (w1 ++ w2)
| lang_alt_l r1 r2 w : lang r1 w -> lang (Alt r1 r2) w
| lang_alt_r r1 r2 w : lang r2 w -> lang (Alt r1 r2) w
| lang_plus_one r w : lang r w -> lang (Plus r) w
| lang_plus_more r w1 w2 :
    lang r w1 -> lang (Plus r) w2 -> lang (Plus r) (w1 ++ w2).

(** Zero or more iterations. *)
Definition lang_star (r : regex) (w : str) : Prop :=
  w = [] \/ lang (Plus r) w.

(** A matcher or a continuation returns a final state. *)
Definition succeeds (o : option str) : Prop := exists z, o = Some z.

(** What [(.|\n)] matches: every code unit except CR, LS and PS. *)
Definition spanned (c : char) : bool := dot c || char_eqb LF c.

(** The characters a pattern can consume. *)
Fixpoint chars_in (P : char -> bool) (r : regex) : Prop :=
  match r with
  | Eps => True
  | Chr p => forall c, p c = true -> P c = true
  | Seq r1 r2 | Alt r1 r2 => chars_in P r1 /\ chars_in P r2
  | Plus r1 => chars_in P r1
  end.

(** The characters of [\s] and of [\w]. *)
Definition white_or_word (c : char) : bool := white c || word c.

(** A record whose exported names stand for themselves when they are
    spliced into the import pattern. *)
Definition literal_exports (f : FileDetails) : Prop :=
  Forall (fun n => pattern_literal n = true) (exports f).

(** ** The order of the keys of an object *)

(** [key_before k1 k2]: [k1] is listed before [k2] whenever an object
    has both.  Array indices ascend and precede every other key; among
    the other keys the order is that of creation, so the relation only
    asks them to differ. *)
Definition key_before (k1 k2 : str) : Prop :=
  match array_index k1, array_index k2 with
  | Some i, Some j => (i < j)%N
  | Some _, None => True
  | None, Some _ => False
  | None, None => k1 <> k2
  end.

(** The invariant of every object built by assignments. *)
Definition canon (o : object) : Prop := StronglySorted key_before (keys o).

(** ** The loops of the engine, step by step *)

(** The names whose counter is not above zero, in the order of the
    entries. *)
Definition deadNames (o : object) : list str :=
  map fst (filter (fun ec => negb (gt0 (snd ec))) (entries o)).

(** The body of the loop over [Object.entries(importCounts)]. *)
Definition collectStep (a : JsMap.ident) :=
  fun (report : FileWithDeadExports) (ec : str * number) =>
    if gt0 (snd ec) then report
    else match JsMap.get report a with
         | Some existingEntry =>
             JsMap.set report a (existingEntry ++ [fst ec])
         | None => JsMap.set report a [fst ec]
         end.

(** What the file at a position adds to the report. *)
Definition entryOf (files : list FileDetails) (ia : nat * FileDetails)
    : JsMap.t :=
  match deadNames (importCountsOf (fst ia) (snd ia) files) with
  | [] => []
  | d => [(fst ia, d)]
  end.

(** The reducer of the counters without its spread. *)
Definition plainInit (exports_ : list str) (o : object) : object :=
  fold_left (fun m e => JsObject.set m e (Num 0)) exports_ o.

(** The body of the loop over the files B. *)
Definition scanStep (a : JsMap.ident) (exportsA : list str) :=
  fun (counts : object) (jb : nat * FileDetails) =>
    if Nat.eqb a (fst jb) then counts
    else scanFile exportsA (contents (snd jb)) counts.

(** Whether the last loop reports a key. *)
Definition dead_in (o : object) (k : str) : bool :=
  match get o k with
  | Some v => negb (gt0 v)
  | None => false
  end.

(** ** Declaration order *)

(** The names of a sequence in the order of their first occurrence:
    [seen] holds the names already listed. *)
Fixpoint uniq (seen l : list str) : list str :=
  match l with
  | [] => []
  | x :: l' =>
      if existsb (str_eqb x) seen then uniq seen l'
      else x :: uniq (seen ++ [x]) l'
  end.

Definition first_occurrences (l : list str) : list str := uniq [] l.

(** [dead] lists names of [exports_] in declaration order: it is what
    is left of the first occurrences after some names are dropped. *)
Definition declaration_order (exports_ dead : list str) : Prop :=
  exists keep, dead = filter keep (first_occurrences exports_).

(** A key that is not an array index. *)
Definition non_index (k : str) : bool :=
  match array_index k with
  | None => true
  | Some _ => false
  end.

(** ** Texts and files of the examples *)

(** Whether [needle] occurs in [hay]. *)
Fixpoint starts_with (needle hay : str) : bool :=
  match needle, hay with
  | [], _ => true
  | _ :: _, [] => false
  | a :: needle', b :: hay' => char_eqb a b && starts_with needle' hay'
  end.

Fixpoint occurs (needle hay : str) : bool :=
  starts_with needle hay ||
  match hay with
  | [] => false
  | _ :: hay' => occurs needle hay'
  end.

(** The statement [import { name } from spec], on one line. *)
Definition named_import (name spec : str) : str :=
  lit "import { " ++ name ++ lit " } from " ++ spec.

(** Records as [getExports] builds them: the exports are extracted from
    the text. *)
Definition file_a_bar : FileDetails :=
  mkFile (lit "a.ts") (lit "export const bar = 1")
         (extract (lit "export const bar = 1")).

Definition file_b_imports_bar : FileDetails :=
  mkFile (lit "b.ts") (lit "import { bar } from './a'")
         (extract (lit "import { bar } from './a'")).

(** Two overload declarations of one function. *)
Definition file_a_foo_twice : FileDetails :=
  mkFile (lit "a.ts")
         (lit "export function foo(a: string): void; export function foo(a: any) {}")
         (extract (lit "export function foo(a: string): void; export function foo(a: any) {}")).

Definition file_b_imports_foo : FileDetails :=
  mkFile (lit "b.ts") (lit "import { foo } from './a'")
         (extract (lit "import { foo } from './a'")).

Definition file_a_self_import : FileDetails :=
  mkFile (lit "a.ts")
         (lit "import { foo } from './a'; export const foo = 1")
         (extract (lit "import { foo } from './a'; export const foo = 1")).

Definition file_b_plain : FileDetails :=
  mkFile (lit "b.ts") (lit "console.log(1)") (extract (lit "console.log(1)")).

Definition file_a_default_42 : FileDetails :=
  mkFile (lit "a.ts") (lit "export const b = 1; export default 42")
         (extract (lit "export const b = 1; export default 42")).

Definition file_a_foo_bar : FileDetails :=
  mkFile (lit "a.ts") (lit "export function foo(){} export const bar = 1")
         (extract (lit "export function foo(){} export const bar = 1")).

(* ================================================================== *)
(** * The directory walk and the command line *)

(** ** String and array methods of [main] and [getAllFiles] *)

(** [String.prototype.startsWith] *)
Definition startsWith (s prefix : str) : bool := starts_with prefix s.

(** [Array.prototype.includes] on strings. *)
Definition includes (l : list str) (x : str) : bool :=
  existsb (str_eqb x) l.

(** [String.prototype.split] with a separator of any length.  [skip]
    counts the characters of a separator just found that are still to be
    passed over, [cur] is the piece being read.  An empty separator
    splits between all characters. *)
Fixpoint split_from (sep : str) (skip : nat) (cur s : str) : list str :=
  match s with
  | [] => [cur]
  | c :: s' =>
      match skip with
      | S skip' => split_from sep skip' cur s'
      | O => if starts_with sep s
             then cur :: split_from sep (length sep - 1) [] s'
             else split_from sep 0 (cur ++ [c]) s'
      end
  end.

Definition split_str (sep s : str) : list str :=
  match sep with
  | [] => map (fun c => [c]) s
  | _ :: _ => split_from sep 0 [] s
  end.

(** [String.prototype.trim]: the white space of [\s] is cut off at
    both ends. *)
Fixpoint trimStart (s : str) : str :=
  match s with
  | [] => []
  | c :: s' => if white c then trimStart s' else s
  end.

Definition trim (s : str) : str := rev (trimStart (rev (trimStart s))).

(** The decimal text of a number, for template literals. *)
Fixpoint uint_text (d : Decimal.uint) : str :=
  match d with
  | Decimal.Nil => []
  | Decimal.D0 d' => 48%N :: uint_text d'
  | Decimal.D1 d' => 49%N :: uint_text d'
  | Decimal.D2 d' => 50%N :: uint_text d'
  | Decimal.D3 d' => 51%N :: uint_text d'
  | Decimal.D4 d' => 52%N :: uint_text d'
  | Decimal.D5 d' => 53%N :: uint_text d'
  | Decimal.D6 d' => 54%N :: uint_text d'
  | Decimal.D7 d' => 55%N :: uint_text d'
  | Decimal.D8 d' => 56%N :: uint_text d'
  | Decimal.D9 d' => 57%N :: uint_text d'
  end.

Definition decimal (n : nat) : str := uint_text (Nat.to_uint n).

(** ** The directory walk *)

(** The constants of the source. *)
Definition PATH_ARG : str := lit "--path=".
Definition EXT_ARG : str := lit "--ext=".
Definition IGNORE_ARG : str := lit "--ignore=".
Definition DEFAULT_IGNORE : list str :=
  map lit ["node_modules"; "build"; "lib"; "dist"; "coverage"; "public";
           "static"; "assets"]%string.
Definition DEFAULT_EXTENSIONS : list str :=
  map lit [".js"; ".jsx"; ".ts"; ".tsx"]%string.

(** What [fs.lstat] and [fs.readdir] show of a tree.  [lstat] does not
    follow symbolic links, so a link is not a directory and the tree is
    finite.  Either call can be rejected.
    [File]: anything [lstat] does not call a directory.  [Dir es]: a
    directory and the names [readdir] lists, in its order.  [Unreadable]:
    a directory whose [readdir] is rejected.  [Unknown]: an entry whose
    [lstat] is rejected. *)
Inductive fsnode : Type :=
| File : fsnode
| Dir : listing -> fsnode
| Unreadable : fsnode
| Unknown : fsnode
with listing : Type :=
| NoEntry : listing
| Entry : str -> fsnode -> listing -> listing.

(** Induction on a tree and its listings together. *)
Scheme fsnode_mut := Induction for fsnode Sort Prop
  with listing_mut := Induction for listing Sort Prop.

(** [stat.isDirectory()] *)
Definition isDirectory (n : fsnode) : bool :=
  match n with
  | Dir _ | Unreadable => true
  | File | Unknown => false
  end.

Section Walk.

(** [path.join] and [path.extname] of the platform. *)
Variable join : str -> str -> str.
Variable extname : str -> str.

(** [getAllFiles(home, extensions, ignore)], [dir] being what is at
    [home]; [None] when a call to the file system is rejected.  [walk]
    is the loop over the names of the directory, [paths] the paths
    pushed so far. *)
Fixpoint getAllFiles (home : str) (extensions ignore : list str) (dir : fsnode)
    : option (list str) :=
  match dir with
  | Dir files => walk home extensions ignore files []
  | File | Unreadable | Unknown => None
  end
with walk (home : str) (extensions ignore : list str) (files : listing)
    (paths : list str) : option (list str) :=
  match files with
  | NoEntry => Some paths
  | Entry file n files' =>
      let filePath := join home file in
      match n with
      | Unknown => None
      | Dir _ | Unreadable =>
          if includes ignore file
          then walk home extensions ignore files' paths
          else match getAllFiles filePath extensions ignore n with
               | None => None
               | Some subFiles =>
                   walk home extensions ignore files' (paths ++ subFiles)
               end
      | File =>
          let ext := extname filePath in
          if includes extensions ext
          then walk home extensions ignore files' (paths ++ [filePath])
          else walk home extensions ignore files' paths
      end
  end.

(** ** The command line and the output *)

(** [pathArg.split(PATH_ARG)[1]], [None] for [undefined]. *)
Definition basePathOf (pathArg : str) : option str :=
  nth_error (split_str PATH_ARG pathArg) 1.

(** The optional [--ext=] argument; [None] when [split(EXT_ARG)[1]] is
    [undefined] and the call of [split] on it throws. *)
Definition extensionsOf (argv : list str) : option (list str) :=
  match find (fun arg => startsWith arg EXT_ARG) argv with
  | Some extArg =>
      match nth_error (split_str EXT_ARG extArg) 1 with
      | Some list_ =>
          Some (map (fun ext => if startsWith (trim ext) (lit ".")
                                then trim ext else lit "." ++ trim ext)
                    (split_str (lit ",") list_))
      | None => None
      end
  | None => Some DEFAULT_EXTENSIONS
  end.

(** The optional [--ignore=] argument, in the same way. *)
Definition ignorePathsOf (argv : list str) : option (list str) :=
  match find (fun arg => startsWith arg IGNORE_ARG) argv with
  | Some ignoreArg =>
      match nth_error (split_str IGNORE_ARG ignoreArg) 1 with
      | Some list_ => Some (map trim (split_str (lit ",") list_))
      | None => None
      end
  | None => Some DEFAULT_IGNORE
  end.

(** An argument of [console.log]. *)
Inductive value : Type :=
| VString : str -> value
| VNumber : nat -> value
| VArray : list str -> value.

(** The calls of [console.log] for the report, in order. *)
Definition printReport (files : list FileDetails)
    (filesWithDeadExports : FileWithDeadExports) : list (list value) :=
  flat_map (fun ie =>
              let index := fst ie in
              let file := fst (snd ie) in
              let deadExports := snd (snd ie) in
              [[VString (lit "File #" ++ decimal (index + 1))];
               [VString (lit "Path:");
                VString (match nth_error files file with
                         | Some f => path f
                         | None => []
                         end)];
               [VString (lit "Dead exports:"); VArray deadExports];
               [VString (lit "Total:"); VNumber (length deadExports);
                VString [LF]]])
           (indexed filesWithDeadExports)
  ++ [[VString (lit "Total files with dead exports:");
       VNumber (JsMap.size filesWithDeadExports)]].

(** How a run of [main] ends. *)
Inductive outcome : Type :=
| Threw : str -> outcome
| Rejected : outcome
| Printed : list (list value) -> outcome.

(** [main]: [lstat] is the tree at a path, [readFile] the text of a
    file.  [Threw] is one of the two errors of [main], [Rejected] a
    rejected call to the file system or a [TypeError] on [undefined].
    The key of a report entry is the position of its record, from which
    [file.path] is read. *)
Definition main (argv : list str) (lstat : str -> fsnode)
    (readFile : str -> option str) : outcome :=
  match find (fun arg => startsWith arg PATH_ARG) argv with
  | None => Threw (lit "No path argument provided")
  | Some pathArg =>
      match basePathOf pathArg with
      | None => Rejected
      | Some basePath =>
          match lstat basePath with
          | Unknown => Rejected
          | root =>
              if negb (isDirectory root)
              then Threw (lit "Path is not a directory")
              else
                match extensionsOf argv, ignorePathsOf argv with
                | Some extensions, Some ignorePaths =>
                    match getAllFiles basePath extensions ignorePaths
                                      root with
                    | None => Rejected
                    | Some files =>
                        match getExports readFile files with
                        | None => Rejected
                        | Some filesWithExports =>
                            Printed (printReport filesWithExports
                                       (getFilesWithDeadExports
                                          filesWithExports))
                        end
                    end
                | _, _ => Rejected
                end
          end
      end
  end.

End Walk.

(** ** Vocabulary of the further properties *)

(** [k] copies of a string, one after the other. *)
Fixpoint repeat_str (s : str) (k : nat) : str :=
  match k with
  | O => []
  | S k' => s ++ repeat_str s k'
  end.

(** The number of files, other than the one at position [a], whose text
    the detector accepts for [name]. *)
Definition importers (a : nat) (name : str) (files : list FileDetails) : nat :=
  length (filter (fun jb => negb (Nat.eqb a (fst jb))
                            && isImported name (contents (snd jb)))
                 (indexed files)).

(** Whether the file at a position has a dead export. *)
Definition reported (files : list FileDetails) (ia : nat * FileDetails)
    : bool :=
  match deadNames (importCountsOf (fst ia) (snd ia) files) with
  | [] => false
  | _ :: _ => true
  end.

(** The declaration keywords of the export pattern that stand alone (the
    alternatives without [default]). *)
Definition declaration_keywords : list string :=
  ["const"; "let"; "var"; "class"; "interface"; "type"; "enum";
   "function"]%string.

(** The text is over, or goes on with a character outside the class. *)
Definition stops (p : char -> bool) (rest : str) : bool :=
  match rest with
  | [] => true
  | ch :: _ => negb (p ch)
  end.

(** ** Vocabulary of the directory walk *)

(** The tree without the directories the walk does not enter. *)
Fixpoint prune_node (ignore : list str) (n : fsnode) : fsnode :=
  match n with
  | Dir es => Dir (prune ignore es)
  | File | Unreadable | Unknown => n
  end
with prune (ignore : list str) (es : listing) : listing :=
  match es with
  | NoEntry => NoEntry
  | Entry file n es' =>
      if isDirectory n && includes ignore file
      then prune ignore es'
      else Entry file (prune_node ignore n) (prune ignore es')
  end.

(** A listing in which every call of the walk is answered. *)
Fixpoint answered_node (n : fsnode) : bool :=
  match n with
  | File => true
  | Dir es => answered es
  | Unreadable | Unknown => false
  end
with answered (es : listing) : bool :=
  match es with
  | NoEntry => true
  | Entry _ n es' => answered_node n && answered es'
  end.

(** A directory that is read, and in which every call is answered. *)
Definition walkable (n : fsnode) : bool :=
  match n with
  | Dir es => answered es
  | File | Unreadable | Unknown => false
  end.

(** One listing after another. *)
Fixpoint listing_app (es1 es2 : listing) : listing :=
  match es1 with
  | NoEntry => es2
  | Entry file n es1' => Entry file n (listing_app es1' es2)
  end.

(** [listed file n es]: the listing has the name [file] for [n]. *)
Fixpoint listed (file : str) (n : fsnode) (es : listing) : Prop :=
  match es with
  | NoEntry => False
  | Entry file' n' es' => (file' = file /\ n' = n) \/ listed file n es'
  end.

(** [found join ignore home es p]: [p] is the path of a file that is not
    a directory, under the directory [home] with listing [es], with no
    ignored directory on the way. *)
Inductive found (join : str -> str -> str) (ignore : list str)
    : str -> listing -> str -> Prop :=
| found_here home es file :
    listed file File es -> found join ignore home es (join home file)
| found_below home es dir sub p :
    listed dir (Dir sub) es ->
    includes ignore dir = false ->
    found join ignore (join home dir) sub p ->
    found join ignore home es p.

(** A small tree for the examples: [a.ts], [notes.md], an unreadable
    [node_modules] and [sub] with [b.ts]. *)
Definition example_tree : listing :=
  Entry (lit "a.ts") File
 (Entry (lit "notes.md") File
 (Entry (lit "node_modules") Unreadable
 (Entry (lit "sub") (Dir (Entry (lit "b.ts") File NoEntry))
  NoEntry))).

(** Stand-ins for [path.join] and [path.extname] in the examples: a
    slash between the parts, and the text from the last dot on. *)
Definition example_join (a b : str) : str := a ++ lit "/" ++ b.

Fixpoint example_extname (p : str) : str :=
  match p with
  | [] => []
  | c :: p' =>
      match example_extname p' with
      | [] => if (c =? 46)%N then [c] ++ p' else []
      | e => e
      end
  end.

(** The four calls of [console.log] for one entry of the report. *)
Definition entryLines (files : list FileDetails)
    (ie : nat * (JsMap.ident * list str)) : list (list value) :=
  [[VString (lit "File #" ++ decimal (fst ie + 1))];
   [VString (lit "Path:");
    VString (match nth_error files (fst (snd ie)) with
             | Some f => path f
             | None => []
             end)];
   [VString (lit "Dead exports:"); VArray (snd (snd ie))];
   [VString (lit "Total:"); VNumber (length (snd (snd ie)));
    VString [LF]]].

(* ================================================================== *)
(** * Properties *)

(** ** Strings *)

Lemma char_eqb_eq (a b : char) : char_eqb a b = true <-> a = b.
Proof. unfold char_eqb. apply N.eqb_eq. Qed.

Lemma char_eqb_refl (a : char) : char_eqb a a = true.
Proof. apply char_eqb_eq. reflexivity. Qed.

Lemma str_eqb_eq (a b : str) : str_eqb a b = true <-> a = b.
Proof.
  revert b. induction a as [|x a IH]; intros [|y b]; simpl;
    try (split; intro H; [discriminate H | inversion H]; fail).
  - split; reflexivity.
  - rewrite andb_true_iff, char_eqb_eq, IH. split.
    + intros [-> ->]. reflexivity.
    + intro H. inversion H. split; reflexivity.
Qed.

Lemma str_eqb_refl (a : str) : str_eqb a a = true.
Proof. apply str_eqb_eq. reflexivity. Qed.

Lemma str_eqb_neq (a b : str) : str_eqb a b = false <-> a <> b.
Proof.
  split.
  - intros H E. apply str_eqb_eq in E. congruence.
  - intro H. destruct (str_eqb a b) eqn:E; [|reflexivity].
    apply str_eqb_eq in E. contradiction.
Qed.

Lemma str_eqb_sym (a b : str) : str_eqb a b = str_eqb b a.
Proof.
  destruct (str_eqb a b) eqn:E.
  - apply str_eqb_eq in E. subst. symmetry. apply str_eqb_refl.
  - symmetry. apply str_eqb_neq. apply str_eqb_neq in E. congruence.
Qed.

(** ** The matcher finds a match exactly when the pattern has one *)

Module RegExpFacts.

#[local] Hint Constructors lang : core.

Lemma plus_unfold r w :
  lang (Plus r) w ->
  exists w1 w2, w = w1 ++ w2 /\ lang r w1 /\ lang_star r w2.
Proof.
  intro H. inversion H; subst.
  - exists w, []. rewrite app_nil_r. repeat split; auto. now left.
  - exists w1, w2. repeat split; auto. now right.
Qed.

(** A non-empty word of [r+] starts with a non-empty iteration. *)
Lemma plus_progress r w :
  lang (Plus r) w -> w <> [] ->
  exists w1 w2, w = w1 ++ w2 /\ w1 <> [] /\ lang r w1 /\ lang_star r w2.
Proof.
  intro H. remember (Plus r) as pr eqn:E. revert E.
  induction H; intros E Hne; inversion E; subst.
  - exists w, []. rewrite app_nil_r. repeat split; auto. now left.
  - destruct w1 as [|c w1].
    + simpl in *. apply IHlang2; auto.
    + exists (c :: w1), w2. repeat split; auto; [discriminate | now right].
Qed.

Lemma star_step r w1 w2 :
  lang r w1 -> lang_star r w2 -> lang (Plus r) (w1 ++ w2).
Proof.
  intros H1 [-> | H2]; [rewrite app_nil_r|]; auto.
Qed.

Section More.
Variable r : regex.
Variable m : matcher.
Hypothesis m_complete :
  forall w y c, lang r w -> succeeds (c y) -> succeeds (m (w ++ y) c).
Hypothesis m_sound :
  forall x c z, m x c = Some z ->
    exists w y, x = w ++ y /\ lang r w /\ c y = Some z.

Lemma more_complete fuel :
  forall x w y c,
    length x <= fuel -> x = w ++ y -> lang_star r w ->
    succeeds (c y) -> succeeds (more m fuel x c).
Proof.
  induction fuel as [|fuel IH]; intros x w y c Hlen -> Hw Hc.
  - destruct w; [|simpl in Hlen; lia]. simpl in *. exact Hc.
  - simpl.
    destruct w as [|a w].
    + simpl in *. destruct (m y _); [eexists; reflexivity | exact Hc].
    + destruct Hw as [Hw|Hw]; [discriminate|].
      destruct (plus_progress _ _ Hw) as (w1 & w2 & E & Hne & H1 & H2);
        [discriminate|].
      rewrite E, <- app_assoc.
      assert (S : succeeds
                (m (w1 ++ w2 ++ y)
                   (fun y0 => if length y0 <? length (w1 ++ w2 ++ y)
                              then more m fuel y0 c else None))).
      { apply m_complete; [exact H1|].
        assert (L : length (w2 ++ y) < length (w1 ++ w2 ++ y)).
        { rewrite (length_app w1). destruct w1; [congruence|simpl; lia]. }
        apply Nat.ltb_lt in L. rewrite L.
        apply IH with (w := w2) (y := y); auto.
        rewrite E, <- app_assoc in Hlen. apply Nat.ltb_lt in L. lia. }
      destruct S as [z ->]. eexists; reflexivity.
Qed.

Lemma more_sound fuel :
  forall x c z, more m fuel x c = Some z ->
    exists w y, x = w ++ y /\ lang_star r w /\ c y = Some z.
Proof.
  induction fuel as [|fuel IH]; intros x c z H; simpl in H.
  - exists [], x. repeat split; auto. now left.
  - destruct (m x _) as [z'|] eqn:E.
    + inversion H; subst z'. clear H.
      apply m_sound in E. destruct E as (w1 & y1 & -> & H1 & Hk).
      destruct (length y1 <? length (w1 ++ y1)); [|discriminate].
      apply IH in Hk. destruct Hk as (w2 & y2 & -> & H2 & Hc).
      exists (w1 ++ w2), y2. rewrite app_assoc. repeat split; auto.
      right. apply star_step; assumption.
    + exists [], x. repeat split; auto. now left.
Qed.
End More.

(** Completeness: a word of the pattern in front of an input the
    continuation accepts makes the matcher succeed. *)
Lemma compile_complete r :
  forall w y c, lang r w -> succeeds (c y) -> succeeds (compile r (w ++ y) c).
Proof.
  induction r as [|p|r1 IH1 r2 IH2|r1 IH1 r2 IH2|r1 IH1];
    intros w y c Hw Hc; simpl.
  - inversion Hw; subst. exact Hc.
  - inversion Hw; subst. simpl. rewrite H0. exact Hc.
  - inversion Hw; subst. rewrite <- app_assoc.
    apply IH1; [assumption|]. apply IH2; assumption.
  - inversion Hw; subst.
    + destruct (IH1 w y c H2 Hc) as [z ->]. eexists; reflexivity.
    + destruct (compile r1 (w ++ y) c); [eexists; reflexivity|].
      apply IH2; assumption.
  - apply plus_unfold in Hw. destruct Hw as (w1 & w2 & -> & H1 & H2).
    rewrite <- app_assoc. apply IH1; [assumption|].
    apply more_complete with (r := r1) (w := w2) (y := y); auto.
Qed.

(** Soundness: a success of the matcher splits the input into a word of
    the pattern and an input the continuation accepted. *)
Lemma compile_sound r :
  forall x c z, compile r x c = Some z ->
    exists w y, x = w ++ y /\ lang r w /\ c y = Some z.
Proof.
  induction r as [|p|r1 IH1 r2 IH2|r1 IH1 r2 IH2|r1 IH1];
    intros x c z H; simpl in H.
  - exists [], x. auto.
  - destruct x as [|ch x]; [discriminate|].
    destruct (p ch) eqn:E; [|discriminate].
    exists [ch], x. auto.
  - apply IH1 in H. destruct H as (w1 & y1 & -> & H1 & H).
    apply IH2 in H. destruct H as (w2 & y2 & -> & H2 & H).
    exists (w1 ++ w2), y2. rewrite app_assoc. auto.
  - destruct (compile r1 x c) as [z'|] eqn:E.
    + inversion H; subst z'. apply IH1 in E.
      destruct E as (w & y & -> & Hw & Hc). exists w, y. auto.
    + apply IH2 in H. destruct H as (w & y & -> & Hw & Hc).
      exists w, y. auto.
  - apply IH1 in H. destruct H as (w1 & y1 & -> & H1 & H).
    apply more_sound with (r := r1) in H; [|exact IH1].
    destruct H as (w2 & y2 & -> & H2 & Hc).
    exists (w1 ++ w2), y2. rewrite app_assoc. repeat split; auto.
    apply star_step; assumption.
Qed.

Lemma match_at_sound r x w rest :
  match_at r x = Some (w, rest) -> x = w ++ rest /\ lang r w.
Proof.
  unfold match_at. intro H.
  destruct (compile r x _) as [z|] eqn:E; [|discriminate].
  inversion H; subst. clear H.
  apply compile_sound in E. destruct E as (w & y & -> & Hw & Hc).
  inversion Hc; subst.
  rewrite length_app, Nat.add_sub, firstn_app, Nat.sub_diag, firstn_all.
  simpl. rewrite app_nil_r. auto.
Qed.

Lemma match_at_complete r w rest :
  lang r w -> exists mr, match_at r (w ++ rest) = Some mr.
Proof.
  intro Hw. unfold match_at.
  assert (S : succeeds (compile r (w ++ rest) (fun y => Some y))).
  { apply compile_complete; [assumption | eexists; reflexivity]. }
  destruct S as [z E]. rewrite E. eexists; reflexivity.
Qed.

Lemma exec_sound r x w rest :
  exec r x = Some (w, rest) ->
  exists pre, x = pre ++ w ++ rest /\ lang r w.
Proof.
  induction x as [|a x IH]; simpl.
  - destruct (match_at r []) as [[w' rest']|] eqn:E; [|discriminate].
    intro H. inversion H; subst.
    apply match_at_sound in E. exists []. exact E.
  - destruct (match_at r (a :: x)) as [[w' rest']|] eqn:E.
    + intro H. inversion H; subst.
      apply match_at_sound in E. exists []. exact E.
    + intro H. apply IH in H. destruct H as (pre & -> & Hw).
      exists (a :: pre). auto.
Qed.

Lemma exec_complete r pre w rest :
  lang r w -> exists mr, exec r (pre ++ w ++ rest) = Some mr.
Proof.
  intro Hw. induction pre as [|a pre IH].
  - destruct (match_at_complete r w rest Hw) as [mr E]. simpl.
    destruct (w ++ rest); simpl; rewrite E; eexists; reflexivity.
  - simpl. destruct (match_at r (a :: pre ++ w ++ rest));
      [eexists; reflexivity | exact IH].
Qed.

(** [text.match(re)] is not [null] exactly when some part of the text is
    a word of the pattern. *)
Lemma match_g_some r x :
  (exists l, match_g r x = Some l) <->
  (exists pre w rest, x = pre ++ w ++ rest /\ lang r w).
Proof.
  unfold match_g. simpl. split.
  - intros [l H]. destruct (exec r x) as [[w rest]|] eqn:E; [|discriminate].
    apply exec_sound in E. destruct E as (pre & E & Hw).
    exists pre, w, rest. auto.
  - intros (pre & w & rest & -> & Hw).
    destruct (exec_complete r pre w rest Hw) as [[w' rest'] ->].
    eexists; reflexivity.
Qed.

Lemma match_g_nonempty r x l : match_g r x = Some l -> l <> [].
Proof.
  unfold match_g. destruct (match_loop _ r x); [discriminate|].
  intro H. inversion H. discriminate.
Qed.

(** Every element of the array of matches is a word of the pattern. *)
Lemma match_loop_lang fuel r :
  forall x w, In w (match_loop fuel r x) -> lang r w.
Proof.
  induction fuel as [|fuel IH]; intros x w; simpl; [tauto|].
  destruct (exec r x) as [[w' rest]|] eqn:E; [|simpl; tauto].
  apply exec_sound in E. destruct E as (pre & _ & Hw').
  intros [<- | H]; [assumption|].
  destruct w' as [|a w'].
  - destruct rest; [contradiction | eauto].
  - eauto.
Qed.

Lemma match_g_lang r x l w : match_g r x = Some l -> In w l -> lang r w.
Proof.
  unfold match_g. intros H Hin.
  apply match_loop_lang with (fuel := S (length x)) (x := x).
  destruct (match_loop _ r x); [discriminate|].
  inversion H; subst. exact Hin.
Qed.

(** *** The bounds on the iterations are never reached *)

Lemma compile_fails r x : compile r x (fun _ => None) = None.
Proof.
  destruct (compile r x (fun _ => None)) as [z|] eqn:E; [|reflexivity].
  apply compile_sound in E. destruct E as (w & y & _ & _ & H). discriminate.
Qed.

(** A matcher only hands the continuation inputs no longer than its own. *)
Lemma compile_ext r :
  forall x c c',
    (forall y, length y <= length x -> c y = c' y) ->
    compile r x c = compile r x c'.
Proof.
  induction r as [|p|r1 IH1 r2 IH2|r1 IH1 r2 IH2|r1 IH1];
    intros x c c' H; simpl.
  - apply H. lia.
  - destruct x as [|ch x]; [reflexivity|].
    destruct (p ch); [|reflexivity]. apply H. simpl. lia.
  - apply IH1. intros y Hy. apply IH2. intros z Hz. apply H. lia.
  - rewrite (IH1 x c c' H), (IH2 x c c' H). reflexivity.
  - apply IH1. intros y Hy.
    assert (G : forall fuel u,
               length u <= length x ->
               more (compile r1) fuel u c = more (compile r1) fuel u c').
    { induction fuel as [|fuel IHf]; intros u Hu; simpl; [apply H; exact Hu|].
      rewrite (H u Hu).
      rewrite (IH1 u _ (fun y0 => if length y0 <? length u
                                  then more (compile r1) fuel y0 c'
                                  else None)); [reflexivity|].
      intros z Hz. destruct (length z <? length u); [|reflexivity].
      apply IHf. lia. }
    apply G. exact Hy.
Qed.

(** With fuel for the whole input left, more fuel changes nothing. *)
Lemma more_fuel r c :
  forall n x f1 f2,
    length x <= n -> length x <= f1 -> length x <= f2 ->
    more (compile r) f1 x c = more (compile r) f2 x c.
Proof.
  assert (Z : forall f, more (compile r) f [] c = c []).
  { intros [|f]; simpl; [reflexivity|].
    rewrite (compile_ext r [] _ (fun _ => None)), compile_fails;
      [reflexivity|].
    intros y Hy. destruct y; [reflexivity | simpl in Hy; lia]. }
  induction n as [|n IH]; intros x f1 f2 Hn H1 H2.
  - destruct x; [|simpl in Hn; lia]. now rewrite !Z.
  - destruct x as [|a x]; [now rewrite !Z|].
    destruct f1 as [|f1]; [simpl in H1; lia|].
    destruct f2 as [|f2]; [simpl in H2; lia|].
    simpl more.
    rewrite (compile_ext r (a :: x) _
               (fun y => if length y <? length (a :: x)
                         then more (compile r) f2 y c else None));
      [reflexivity|].
    intros y Hy. simpl in Hy |- *.
    destruct (length y <? S (length x)) eqn:L; [|reflexivity].
    apply Nat.ltb_lt in L. simpl in *. apply IH; lia.
Qed.

Lemma match_loop_fuel r :
  forall f1 f2 x,
    length x < f1 -> length x < f2 ->
    match_loop f1 r x = match_loop f2 r x.
Proof.
  induction f1 as [|f1 IH]; intros f2 x H1 H2; [lia|].
  destruct f2 as [|f2]; [lia|]. simpl.
  destruct (exec r x) as [[w rest]|] eqn:E; [|reflexivity].
  apply exec_sound in E. destruct E as (pre & -> & _).
  rewrite !length_app in H1, H2. f_equal.
  destruct w as [|a w].
  - destruct rest as [|b rest]; [reflexivity|].
    simpl in H1, H2. apply IH; lia.
  - simpl in H1, H2. apply IH; lia.
Qed.

(** Words of the building blocks. *)
Lemma lang_Str s : lang (Str s) s.
Proof.
  induction s as [|c s IH]; simpl; [constructor|].
  change (c :: s) with ([c] ++ s). constructor; [|assumption].
  constructor. apply char_eqb_refl.
Qed.

Lemma lang_plus_chr p w :
  w <> [] -> forallb p w = true -> lang (Plus (Chr p)) w.
Proof.
  induction w as [|c w IH]; [congruence|]. intros _ H. simpl in H.
  apply andb_true_iff in H. destruct H as [Hc Hw].
  destruct w as [|d w].
  - apply lang_plus_one. constructor. assumption.
  - change (c :: d :: w) with ([c] ++ d :: w). apply lang_plus_more.
    + constructor. assumption.
    + apply IH; [discriminate | assumption].
Qed.

End RegExpFacts.
Import RegExpFacts.

(** ** The two patterns *)

Module PatternFacts.

Ltac bool_to_prop :=
  repeat match goal with
    | H : _ && _ = true |- _ => apply andb_true_iff in H; destruct H
    | H : _ || _ = true |- _ => apply orb_true_iff in H; destruct H
    | H : negb _ = true |- _ => apply negb_true_iff in H
    | H : _ || _ = false |- _ => apply orb_false_iff in H; destruct H
    | H : (_ <=? _)%N = true |- _ => apply N.leb_le in H
    | H : (_ =? _)%N = true |- _ => apply N.eqb_eq in H
    | H : (_ =? _)%N = false |- _ => apply N.eqb_neq in H
    | H : char_eqb _ _ = true |- _ => apply char_eqb_eq in H
    end.

Lemma word_spanned c : word c = true -> spanned c = true.
Proof.
  unfold word, spanned, dot, is_line_terminator, char_eqb, LF. intro H.
  bool_to_prop; subst;
    repeat match goal with
      | |- context [(?a =? ?b)%N] =>
          destruct (N.eqb_spec a b); [lia|]
      end; reflexivity.
Qed.

Lemma lang_any_or_newline c : spanned c = true -> lang any_or_newline [c].
Proof.
  unfold spanned, any_or_newline. intro H.
  apply orb_true_iff in H. destruct H as [H|H].
  - apply lang_alt_l. constructor. exact H.
  - apply lang_alt_r. constructor. apply char_eqb_eq in H. subst.
    apply char_eqb_refl.
Qed.

Lemma lang_plus_spanned w :
  w <> [] -> forallb spanned w = true -> lang (Plus any_or_newline) w.
Proof.
  induction w as [|c w IH]; [congruence|]. intros _ H. simpl in H.
  apply andb_true_iff in H. destruct H as [Hc Hw].
  destruct w as [|d w].
  - apply lang_plus_one. apply lang_any_or_newline. assumption.
  - change (c :: d :: w) with ([c] ++ d :: w). apply lang_plus_more.
    + apply lang_any_or_newline. assumption.
    + apply IH; [discriminate | assumption].
Qed.

(** A span the import pattern matches: [import], anything, the name,
    anything, [from], the rest of the line. *)
Lemma import_pattern_word exportName a b t :
  a <> [] -> forallb spanned a = true ->
  b <> [] -> forallb spanned b = true ->
  t <> [] -> forallb dot t = true ->
  lang (import_pattern exportName)
       (lit "import" ++ a ++ exportName ++ b ++ lit "from" ++ t).
Proof.
  intros Ha1 Ha2 Hb1 Hb2 Ht1 Ht2. unfold import_pattern.
  change (lit "import") with (lit "impor" ++ [116%N]).
  rewrite <- app_assoc.
  apply lang_seq; [apply lang_Str|].
  apply lang_seq.
  { simpl. change [116%N] with ([116%N] ++ @nil char).
    apply lang_seq; constructor. reflexivity. }
  apply lang_seq; [apply lang_plus_spanned; assumption|].
  apply lang_seq; [apply lang_plus_one, lang_Str|].
  apply lang_seq; [apply lang_plus_spanned; assumption|].
  apply lang_seq; [apply lang_Str|].
  apply lang_plus_chr; assumption.
Qed.

Lemma isImported_true_iff exportName x :
  isImported exportName x = true <->
  exists pre w rest,
    x = pre ++ w ++ rest /\ lang (import_pattern exportName) w.
Proof.
  unfold isImported. rewrite <- match_g_some. split.
  - destruct (match_g _ x) as [l|]; [eauto | discriminate].
  - intros [l H]. rewrite H. apply match_g_nonempty in H.
    destruct l; [congruence | reflexivity].
Qed.

Lemma lang_chars P r w :
  chars_in P r -> lang r w -> forallb P w = true.
Proof.
  intros Hr Hw. induction Hw; simpl in Hr.
  - reflexivity.
  - simpl. rewrite (Hr c H). reflexivity.
  - destruct Hr. rewrite forallb_app, IHHw1, IHHw2; auto.
  - destruct Hr. auto.
  - destruct Hr. auto.
  - auto.
  - rewrite forallb_app, IHHw1, IHHw2; auto.
Qed.

Lemma chars_in_Str P s : forallb P s = true -> chars_in P (Str s).
Proof.
  induction s as [|c s IH]; simpl; [trivial|]. intro H.
  apply andb_true_iff in H. destruct H as [Hc Hs]. split; [|auto].
  intros d Hd. apply char_eqb_eq in Hd. subst. assumption.
Qed.

Lemma chars_in_alternatives P ks :
  Forall (fun k => forallb P (lit k) = true) ks ->
  chars_in P (alternatives ks).
Proof.
  assert (G : forall l r,
             chars_in P r ->
             Forall (fun k => forallb P (lit k) = true) l ->
             chars_in P (fold_left (fun r k' => Alt r (Str (lit k'))) l r)).
  { induction l as [|a l IH]; intros r Hr Hl; simpl; [assumption|].
    inversion Hl; subst. apply IH; [|assumption].
    split; [assumption | apply chars_in_Str; assumption]. }
  unfold alternatives. destruct ks as [|k ks]; [intros _; exact I|].
  intro H. inversion H as [|? ? Hk Hks]; subst.
  apply G; [apply chars_in_Str; assumption | assumption].
Qed.

(** A match of the export pattern is made of white space and word
    characters only. *)
Lemma export_pattern_chars : chars_in white_or_word export_pattern.
Proof.
  unfold export_pattern.
  assert (W : forall c, white c = true -> white_or_word c = true).
  { intros c H. unfold white_or_word. rewrite H. reflexivity. }
  assert (D : forall c, word c = true -> white_or_word c = true).
  { intros c H. unfold white_or_word. rewrite H. apply orb_true_r. }
  split; [apply chars_in_Str; reflexivity|].
  split; [exact W|].
  split; [apply chars_in_alternatives; repeat constructor|].
  split; [exact W | exact D].
Qed.

Lemma white_or_word_literal c :
  white_or_word c = true -> syntax_character c = false.
Proof.
  unfold white_or_word, white, word. intro H.
  unfold syntax_character, char_eqb. simpl.
  bool_to_prop; subst;
    repeat match goal with
      | |- context [(?a =? ?b)%N] =>
          destruct (N.eqb_spec a b); [lia|]
      end; reflexivity.
Qed.

Lemma split_chars sep s :
  forall piece c, In piece (split sep s) -> In c piece -> In c s.
Proof.
  induction s as [|a s IH]; intros piece c; simpl.
  - intros [<- | []] [].
  - destruct (char_eqb a sep).
    + intros [<- | H] Hc; [destruct Hc | right; eauto].
    + destruct (split sep s) as [|w ws] eqn:E.
      * intros [<- | []] [-> | []]. now left.
      * intros [<- | H] Hc.
        -- destruct Hc as [-> | Hc]; [now left | right].
           apply (IH w); [now left | assumption].
        -- right. apply (IH piece); [now right | assumption].
Qed.

Lemma export_name_In list_ statement n :
  In n (export_name list_ statement) ->
  In n list_ \/ (n <> [] /\ forall c, In c n -> In c statement).
Proof.
  unfold export_name, at_.
  destruct (Nat.eqb _ 0); [auto|].
  destruct (nth_error _ _) as [[|c res]|] eqn:E; auto.
  intro H. apply in_app_or in H. destruct H as [H | [<- | []]]; [auto|].
  right. split; [discriminate|]. intros d Hd.
  apply nth_error_In in E. eapply split_chars; eassumption.
Qed.

Lemma fold_export_name_In statements :
  forall list_ n,
    In n (fold_left export_name statements list_) ->
    In n list_ \/
    (n <> [] /\ exists st, In st statements /\ forall c, In c n -> In c st).
Proof.
  induction statements as [|st sts IH]; intros list_ n H; simpl in H; auto.
  apply IH in H. destruct H as [H | (Hne & st' & Hin & Hc)].
  - apply export_name_In in H. destruct H as [H | [Hne Hc]]; auto.
    right. split; [assumption|]. exists st. split; [now left | assumption].
  - right. split; [assumption|]. exists st'. split; [now right | assumption].
Qed.

(** Every name the extractor produces is non-empty and made of white
    space and word characters: free of pattern syntax. *)
Lemma extract_names contents_ n :
  In n (extract contents_) ->
  n <> [] /\ forallb white_or_word n = true /\ pattern_literal n = true.
Proof.
  unfold extract. intro H. apply fold_export_name_In in H.
  destruct H as [[] | (Hne & st & Hin & Hc)].
  assert (W : forallb white_or_word n = true).
  { destruct (match_g export_pattern contents_) as [l|] eqn:E;
      [|destruct Hin].
    pose proof (lang_chars _ _ _ export_pattern_chars
                  (match_g_lang _ _ _ _ E Hin)) as F.
    rewrite forallb_forall in F. apply forallb_forall.
    intros c Hcn. apply F. apply Hc. assumption. }
  repeat split; auto.
  unfold pattern_literal. rewrite forallb_forall in W.
  apply forallb_forall. intros c Hcn.
  rewrite (white_or_word_literal c (W c Hcn)). reflexivity.
Qed.

Lemma getExports_loop_literal fs files :
  forall acc result,
    Forall literal_exports acc ->
    getExports_loop fs files acc = Some result ->
    Forall literal_exports result.
Proof.
  induction files as [|file files IH]; intros acc result Hacc H; simpl in H.
  - inversion H; subst. assumption.
  - destruct (fs file) as [c|]; [|discriminate].
    apply IH in H; [assumption|].
    apply Forall_app. split; [assumption|].
    constructor; [|constructor].
    unfold literal_exports. simpl. apply Forall_forall.
    intros n Hn. apply extract_names in Hn. tauto.
Qed.

(** The records [getExports] builds only carry names that stand for
    themselves inside the import pattern. *)
Lemma getExports_literal fs files result :
  getExports fs files = Some result -> Forall literal_exports result.
Proof.
  unfold getExports. apply getExports_loop_literal. constructor.
Qed.

End PatternFacts.
Import PatternFacts.

(** ** The counters object *)

Module ObjectFacts.

Lemma existsb_str x l : existsb (str_eqb x) l = true <-> In x l.
Proof.
  rewrite existsb_exists. split.
  - intros (y & Hy & E). apply str_eqb_eq in E. subst. assumption.
  - intro H. exists x. split; [assumption | apply str_eqb_refl].
Qed.

Lemma get_None o k : get o k = None <-> ~ In k (keys o).
Proof.
  induction o as [|[k' v] o IH]; simpl.
  - tauto.
  - destruct (str_eqb k k') eqn:E.
    + apply str_eqb_eq in E. subst. split; [discriminate | tauto].
    + apply str_eqb_neq in E. rewrite IH. split.
      * intros H [H1 | H1]; [congruence | tauto].
      * tauto.
Qed.

Lemma get_Some_In o k v : get o k = Some v -> In (k, v) o.
Proof.
  induction o as [|[k' v'] o IH]; simpl; [discriminate|].
  destruct (str_eqb k k') eqn:E.
  - apply str_eqb_eq in E. subst. intro H. inversion H. now left.
  - auto.
Qed.

Lemma keys_replace o k v : keys (replace o k v) = keys o.
Proof.
  induction o as [|[k' v'] o IH]; simpl; [reflexivity|].
  destruct (str_eqb k k'); simpl; [reflexivity | now rewrite IH].
Qed.

Lemma get_replace o k v k' :
  get o k <> None ->
  get (replace o k v) k' = if str_eqb k' k then Some v else get o k'.
Proof.
  induction o as [|[k0 v0] o IH]; simpl; [congruence|].
  destruct (str_eqb k k0) eqn:E; intro H; simpl.
  - apply str_eqb_eq in E. subst k0.
    destruct (str_eqb k' k); reflexivity.
  - rewrite (IH H). destruct (str_eqb k' k0) eqn:E0; [|reflexivity].
    apply str_eqb_eq in E0. subst k0. rewrite str_eqb_sym, E. reflexivity.
Qed.

Lemma get_app o1 o2 k :
  get (o1 ++ o2) k = match get o1 k with
                     | Some v => Some v
                     | None => get o2 k
                     end.
Proof.
  induction o1 as [|[k0 v0] o1 IH]; simpl; [reflexivity|].
  destruct (str_eqb k k0); [reflexivity | exact IH].
Qed.

Lemma get_create_index o i k v k' :
  get o k = None ->
  get (create_index o i k v) k' = if str_eqb k' k then Some v else get o k'.
Proof.
  induction o as [|[k0 v0] o IH]; simpl; [reflexivity|].
  destruct (str_eqb k k0) eqn:E; [discriminate|]. intro H.
  assert (G : get ((k, v) :: (k0, v0) :: o) k'
              = if str_eqb k' k then Some v
                else if str_eqb k' k0 then Some v0 else get o k')
    by reflexivity.
  destruct (array_index k0) as [j|]; [|exact G].
  destruct (j <? i)%N; [|exact G].
  simpl. rewrite (IH H).
  destruct (str_eqb k' k0) eqn:E0; [|reflexivity].
  apply str_eqb_eq in E0. subst k0. rewrite str_eqb_sym, E. reflexivity.
Qed.

(** The object as a function of the key: an assignment changes the
    value of its key and of no other. *)
Lemma get_set o k v k' :
  get (set o k v) k' = if str_eqb k' k then Some v else get o k'.
Proof.
  unfold set. destruct (get o k) as [v0|] eqn:E.
  - apply get_replace. congruence.
  - unfold create. destruct (array_index k) as [i|].
    + apply get_create_index. assumption.
    + rewrite get_app. simpl.
      destruct (str_eqb k' k) eqn:E0.
      * apply str_eqb_eq in E0. subst. rewrite E. reflexivity.
      * destruct (get o k'); reflexivity.
Qed.

Lemma keys_create_index_In o i k v x :
  In x (keys (create_index o i k v)) <-> x = k \/ In x (keys o).
Proof.
  induction o as [|[k0 v0] o IH]; simpl.
  - intuition congruence.
  - destruct (array_index k0) as [j|];
      [destruct (j <? i)%N|]; simpl; try rewrite IH; intuition congruence.
Qed.

(** On a key the object has, an assignment keeps the list of keys. *)
Lemma keys_set_present o k v :
  get o k <> None -> keys (set o k v) = keys o.
Proof.
  unfold set. destruct (get o k); [intros _; apply keys_replace | congruence].
Qed.

(** *** Array indices are canonical *)

Lemma digits_bounds k :
  forall acc v, digits k acc = Some v ->
    (acc * 10 ^ N.of_nat (length k) <= v
     < (acc + 1) * 10 ^ N.of_nat (length k))%N.
Proof.
  induction k as [|c k IH]; intros acc v H; simpl digits in H.
  - inversion H; subst. simpl. lia.
  - destruct ((48 <=? c) && (c <=? 57))%N eqn:D; [|discriminate].
    apply andb_true_iff in D. destruct D as [D1 D2].
    apply N.leb_le in D1, D2. apply IH in H.
    replace (N.of_nat (length (c :: k)))
      with (N.succ (N.of_nat (length k))) by (simpl length; lia).
    rewrite N.pow_succ_r'. nia.
Qed.

Lemma digits_same_length k1 :
  forall k2 a1 a2 v,
    length k1 = length k2 ->
    digits k1 a1 = Some v -> digits k2 a2 = Some v ->
    a1 = a2 /\ k1 = k2.
Proof.
  induction k1 as [|c1 k1 IH]; intros [|c2 k2] a1 a2 v L H1 H2;
    try discriminate L; simpl digits in *.
  - split; congruence.
  - destruct ((48 <=? c1) && (c1 <=? 57))%N eqn:D1; [|discriminate].
    destruct ((48 <=? c2) && (c2 <=? 57))%N eqn:D2; [|discriminate].
    apply andb_true_iff in D1, D2. destruct D1 as [A1 B1], D2 as [A2 B2].
    apply N.leb_le in A1, B1, A2, B2.
    simpl in L. injection L as L.
    destruct (IH _ _ _ _ L H1 H2) as [E ->].
    assert (a1 = a2 /\ c1 = c2) as [-> ->] by lia. split; reflexivity.
Qed.

Lemma array_index_inj k1 k2 i :
  array_index k1 = Some i -> array_index k2 = Some i -> k1 = k2.
Proof.
  assert (Z : forall c k v, digits (c :: k) 0 = Some v ->
                (c =? 48)%N && negb (Nat.eqb (length k) 0) = false ->
                (v = 0%N /\ k = [] /\ c = 48%N) \/
                (10 ^ N.of_nat (length k) <= v
                 < 10 ^ N.of_nat (S (length k)))%N).
  { intros c k v H G. simpl digits in H.
    destruct ((48 <=? c) && (c <=? 57))%N eqn:D; [|discriminate].
    apply andb_true_iff in D. destruct D as [D1 D2].
    apply N.leb_le in D1, D2. apply digits_bounds in H.
    destruct (N.eqb_spec c 48) as [->|Hc].
    - simpl in G. apply negb_false_iff, Nat.eqb_eq in G.
      destruct k; [|discriminate]. left. simpl in H.
      repeat split; try reflexivity. lia.
    - right.
      replace (N.of_nat (S (length k)))
        with (N.succ (N.of_nat (length k))) by lia.
      rewrite N.pow_succ_r'. nia. }
  unfold array_index.
  destruct k1 as [|c1 k1]; [discriminate|].
  destruct k2 as [|c2 k2]; [discriminate|].
  destruct ((c1 =? 48)%N && _) eqn:G1; [discriminate|].
  destruct ((c2 =? 48)%N && _) eqn:G2; [discriminate|].
  destruct (digits (c1 :: k1) 0) as [v1|] eqn:E1; [|discriminate].
  destruct (digits (c2 :: k2) 0) as [v2|] eqn:E2; [|discriminate].
  destruct (v1 <? 4294967295)%N; [|discriminate].
  destruct (v2 <? 4294967295)%N; [|discriminate].
  intros H1 H2. inversion H1; inversion H2; subst v1 v2.
  destruct (Z _ _ _ E1 G1) as [(V1 & -> & ->) | B1];
    destruct (Z _ _ _ E2 G2) as [(V2 & -> & ->) | B2].
  - reflexivity.
  - exfalso. assert (0 < 10 ^ N.of_nat (length k2))%N
      by (apply N.neq_0_lt_0, N.pow_nonzero; lia). lia.
  - exfalso. assert (0 < 10 ^ N.of_nat (length k1))%N
      by (apply N.neq_0_lt_0, N.pow_nonzero; lia). lia.
  - assert (L : length k1 = length k2).
    { destruct (Nat.lt_trichotomy (length k1) (length k2)) as [L|[L|L]];
        [exfalso | assumption | exfalso].
      - assert (10 ^ N.of_nat (S (length k1))
                <= 10 ^ N.of_nat (length k2))%N
          by (apply N.pow_le_mono_r; lia). lia.
      - assert (10 ^ N.of_nat (S (length k2))
                <= 10 ^ N.of_nat (length k1))%N
          by (apply N.pow_le_mono_r; lia). lia. }
    assert (L' : length (c1 :: k1) = length (c2 :: k2)) by (simpl; lia).
    destruct (digits_same_length _ _ _ _ _ L' E1 E2) as [_ E]. exact E.
Qed.

End ObjectFacts.
Import ObjectFacts.

(** ** The order of the keys *)

Module KeyOrder.

Lemma key_before_irrefl k : ~ key_before k k.
Proof. unfold key_before. destruct (array_index k); [lia | congruence]. Qed.

Lemma sorted_NoDup l : StronglySorted key_before l -> NoDup l.
Proof.
  induction 1 as [|a l Hs IH Ha]; constructor; [|assumption].
  intro Hin. rewrite Forall_forall in Ha.
  exact (key_before_irrefl _ (Ha _ Hin)).
Qed.

Lemma canon_NoDup o : canon o -> NoDup (keys o).
Proof. apply sorted_NoDup. Qed.

Lemma sorted_app_inv (R : str -> str -> Prop) l1 l2 :
  StronglySorted R (l1 ++ l2) ->
  StronglySorted R l1 /\ StronglySorted R l2 /\
  forall x y, In x l1 -> In y l2 -> R x y.
Proof.
  induction l1 as [|a l1 IH]; simpl; intro H.
  - repeat split; [constructor | assumption | intros x y []].
  - inversion H as [|? ? Hs Ha]; subst.
    destruct (IH Hs) as (H1 & H2 & H3).
    rewrite Forall_forall in Ha.
    repeat split; [constructor | assumption |].
    + assumption.
    + apply Forall_forall. intros x Hx. apply Ha, in_or_app. now left.
    + intros x y [<- | Hx] Hy; [apply Ha, in_or_app; now right | auto].
Qed.

Lemma sorted_app (R : str -> str -> Prop) l1 l2 :
  StronglySorted R l1 -> StronglySorted R l2 ->
  (forall x y, In x l1 -> In y l2 -> R x y) ->
  StronglySorted R (l1 ++ l2).
Proof.
  induction l1 as [|a l1 IH]; simpl; intros H1 H2 H3; [assumption|].
  inversion H1 as [|? ? Hs Ha]; subst. rewrite Forall_forall in Ha.
  constructor.
  - apply IH; auto.
  - apply Forall_forall. intros x Hx. apply in_app_or in Hx.
    destruct Hx; [apply Ha; assumption | apply H3; [now left | assumption]].
Qed.

Lemma sorted_filter (R : str -> str -> Prop) f l :
  StronglySorted R l -> StronglySorted R (filter f l).
Proof.
  induction 1 as [|a l Hs IH Ha]; simpl; [constructor|].
  destruct (f a); [|assumption]. constructor; [assumption|].
  rewrite Forall_forall in *. intros x Hx. apply filter_In in Hx.
  apply Ha. tauto.
Qed.

Lemma canon_create_index o i k v :
  canon o -> ~ In k (keys o) -> array_index k = Some i ->
  canon (create_index o i k v).
Proof.
  unfold canon. intros Hs Hk Hi.
  induction o as [|[k0 v0] o IH]; simpl.
  - constructor; constructor.
  - simpl in Hs, Hk. inversion Hs as [|? ? Hs' Ha]; subst.
    rewrite Forall_forall in Ha.
    assert (F : StronglySorted key_before (k :: k0 :: keys o) <->
                key_before k k0).
    { split.
      - intro H. inversion H as [|? ? _ Hf]; subst.
        inversion Hf; assumption.
      - intro H. constructor; [assumption|].
        constructor; [assumption|]. apply Forall_forall.
        intros x Hx. specialize (Ha x Hx). unfold key_before in *.
        rewrite Hi in *. destruct (array_index k0), (array_index x);
          try lia; tauto. }
    destruct (array_index k0) as [j|] eqn:Ej.
    + destruct (N.ltb_spec j i) as [Hlt|Hge]; simpl.
      * constructor; [apply IH; tauto|].
        apply Forall_forall. intros x Hx.
        apply keys_create_index_In in Hx. destruct Hx as [-> | Hx];
          [|auto]. unfold key_before. rewrite Ej, Hi. assumption.
      * apply F. unfold key_before. rewrite Hi, Ej.
        assert (i <> j); [|lia]. intros <-.
        apply Hk. left. eapply array_index_inj; eassumption.
    + simpl. apply F. unfold key_before. rewrite Hi, Ej. exact I.
Qed.

Lemma canon_set o k v : canon o -> canon (set o k v).
Proof.
  intro Hs. unfold set. destruct (get o k) as [v0|] eqn:E.
  - unfold canon. rewrite keys_replace. assumption.
  - apply get_None in E. unfold create.
    destruct (array_index k) as [i|] eqn:Ei.
    + apply canon_create_index; assumption.
    + unfold canon, keys. rewrite map_app. simpl.
      apply sorted_app; [assumption | repeat constructor |].
      intros x y Hx [<- | []]. unfold key_before. rewrite Ei.
      destruct (array_index x) eqn:Ex; [exact I|]. intros ->. auto.
Qed.

(** A key that belongs at the end is created at the end. *)
Lemma create_at_end o k v :
  canon (o ++ [(k, v)]) -> create o k v = o ++ [(k, v)].
Proof.
  unfold canon, keys, create. rewrite map_app. simpl. intro Hs.
  destruct (array_index k) as [i|] eqn:Ei; [|reflexivity].
  apply sorted_app_inv in Hs. destruct Hs as (_ & _ & Hb).
  induction o as [|[k0 v0] o IH]; simpl; [reflexivity|].
  assert (B : key_before k0 k) by (apply Hb; simpl; auto).
  unfold key_before in B. rewrite Ei in B.
  destruct (array_index k0) as [j|]; [|contradiction].
  apply N.ltb_lt in B. rewrite B. f_equal. apply IH.
  intros x y Hx Hy. apply Hb; simpl; auto.
Qed.

Lemma spread_from o2 :
  forall o1, canon (o1 ++ o2) ->
    fold_left (fun o' kv => set o' (fst kv) (snd kv)) o2 o1 = o1 ++ o2.
Proof.
  induction o2 as [|[k v] o2 IH]; intros o1 Hs; simpl.
  - now rewrite app_nil_r.
  - assert (Hs' : canon ((o1 ++ [(k, v)]) ++ o2))
      by (rewrite <- app_assoc; exact Hs).
    assert (P : canon (o1 ++ [(k, v)])).
    { unfold canon, keys in *. rewrite map_app in Hs'.
      apply sorted_app_inv in Hs'. tauto. }
    assert (G : get o1 k = None).
    { apply get_None. intro Hin. apply canon_NoDup in P.
      unfold keys in P. rewrite map_app in P. simpl in P.
      apply NoDup_remove_2 in P. apply P. rewrite app_nil_r. exact Hin. }
    unfold set at 2. rewrite G, (create_at_end _ _ _ P), IH; [|exact Hs'].
    now rewrite <- app_assoc.
Qed.

(** Spreading an object gives an object with the same entries in the
    same order. *)
Lemma spread_canon o : canon o -> spread o = o.
Proof. intro H. unfold spread. apply (spread_from o [] H). Qed.

End KeyOrder.
Import KeyOrder.

(** ** The report map and the positions of an array *)

Module MapFacts.

Lemma report_get_app (m1 m2 : JsMap.t) k :
  JsMap.get (m1 ++ m2) k = match JsMap.get m1 k with
                           | Some v => Some v
                           | None => JsMap.get m2 k
                           end.
Proof.
  induction m1 as [|[k0 v0] m1 IH]; simpl; [reflexivity|].
  destruct (Nat.eqb k k0); [reflexivity | exact IH].
Qed.

(** [set] on a key the map does not have appends an entry. *)
Lemma set_absent m k v :
  JsMap.get m k = None -> JsMap.set m k v = m ++ [(k, v)].
Proof.
  induction m as [|[k0 v0] m IH]; simpl; [reflexivity|].
  destruct (Nat.eqb k k0); [discriminate|]. intro H. now rewrite IH.
Qed.

(** [set] on the key of the last entry replaces its value in place. *)
Lemma set_last m k cur v :
  JsMap.get m k = None ->
  JsMap.set (m ++ [(k, cur)]) k v = m ++ [(k, v)].
Proof.
  induction m as [|[k0 v0] m IH]; simpl.
  - rewrite Nat.eqb_refl. reflexivity.
  - destruct (Nat.eqb k k0); [discriminate|]. intro H. now rewrite IH.
Qed.

Lemma get_last m k v :
  JsMap.get m k = None -> JsMap.get (m ++ [(k, v)]) k = Some v.
Proof.
  intro H. rewrite report_get_app, H. simpl. now rewrite Nat.eqb_refl.
Qed.

Lemma combine_seq_In {A} (l : list A) :
  forall s j x,
    In (j, x) (combine (seq s (length l)) l) <->
    s <= j /\ nth_error l (j - s) = Some x.
Proof.
  induction l as [|a l IH]; intros s j x; simpl.
  - split; [tauto|]. intros [_ H]. destruct (j - s); discriminate.
  - rewrite IH. split.
    + intros [H | [H1 H2]].
      * inversion H; subst. rewrite Nat.sub_diag. auto.
      * split; [lia|]. replace (j - s) with (S (j - S s)) by lia.
        exact H2.
    + intros [H1 H2]. destruct (j - s) as [|d] eqn:E.
      * left. simpl in H2. inversion H2. f_equal. lia.
      * right. split; [lia|]. replace (j - S s) with d by lia. exact H2.
Qed.

Lemma indexed_In {A} (l : list A) j x :
  In (j, x) (indexed l) <-> nth_error l j = Some x.
Proof.
  unfold indexed. rewrite combine_seq_In, Nat.sub_0_r.
  split; [tauto | intro; split; [lia | assumption]].
Qed.

Lemma indexed_keys {A} (l : list A) :
  map fst (indexed l) = seq 0 (length l).
Proof.
  unfold indexed. generalize 0.
  induction l as [|a l IH]; intro s; simpl; [reflexivity|].
  now rewrite IH.
Qed.

Lemma indexed_NoDup {A} (l : list A) : NoDup (map fst (indexed l)).
Proof. rewrite indexed_keys. apply seq_NoDup. Qed.

End MapFacts.

(** ** The cross-reference engine *)

Module EngineFacts.

Lemma deadNames_cons e c o :
  deadNames ((e, c) :: o)
  = if gt0 c then deadNames o else e :: deadNames o.
Proof. unfold deadNames, entries. simpl. now destruct (gt0 c). Qed.

Lemma collectStep_eq a report e c :
  collectStep a report (e, c)
  = if gt0 c then report
    else match JsMap.get report a with
         | Some existingEntry => JsMap.set report a (existingEntry ++ [e])
         | None => JsMap.set report a [e]
         end.
Proof. reflexivity. Qed.

Lemma collect_existing a es :
  forall m cur,
    JsMap.get m a = None ->
    fold_left (collectStep a) es (m ++ [(a, cur)])
    = m ++ [(a, cur ++ deadNames es)].
Proof.
  induction es as [|[e c] es IH]; intros m cur Hm; cbn [fold_left].
  - unfold deadNames. simpl. now rewrite app_nil_r.
  - rewrite deadNames_cons, collectStep_eq.
    destruct (gt0 c).
    + apply IH. assumption.
    + rewrite (MapFacts.get_last _ _ _ Hm), (MapFacts.set_last _ _ _ _ Hm).
      rewrite (IH _ _ Hm). now rewrite <- app_assoc.
Qed.

(** One run of the last loop adds at most one entry to the report: the
    dead names of the file, when there are any. *)
Lemma collectDead_spec a o report :
  JsMap.get report a = None ->
  collectDead a o report
  = match deadNames o with
    | [] => report
    | d => report ++ [(a, d)]
    end.
Proof.
  change (collectDead a o report) with (fold_left (collectStep a) o report).
  induction o as [|[e c] o IH]; intro Hm; cbn [fold_left]; [reflexivity|].
  rewrite deadNames_cons, collectStep_eq.
  destruct (gt0 c).
  - apply IH. assumption.
  - rewrite Hm, (MapFacts.set_absent _ _ _ Hm).
    apply (collect_existing a o report [e] Hm).
Qed.

Lemma report_from files l :
  forall acc,
    NoDup (map fst l) ->
    (forall ia, In ia l -> JsMap.get acc (fst ia) = None) ->
    fold_left (fun report ia =>
                 collectDead (fst ia)
                   (importCountsOf (fst ia) (snd ia) files) report)
              l acc
    = acc ++ flat_map (entryOf files) l.
Proof.
  induction l as [|[i A] l IH]; intros acc Hnd Hacc; simpl.
  - now rewrite app_nil_r.
  - inversion Hnd as [|? ? Hi Hnd']; subst.
    rewrite collectDead_spec by (apply (Hacc (i, A)); now left).
    unfold entryOf at 1. simpl.
    destruct (deadNames (importCountsOf i A files)) as [|d ds] eqn:E.
    + simpl. apply IH; [assumption|]. intros ia Hia. apply Hacc. now right.
    + rewrite IH; [now rewrite <- app_assoc | assumption |].
      intros [j B] Hj. simpl. rewrite MapFacts.report_get_app.
      pose proof (Hacc (j, B) (or_intror Hj)) as Hjb. simpl in Hjb.
      rewrite Hjb. simpl.
      destruct (Nat.eqb_spec j i) as [->|]; [|reflexivity].
      exfalso. apply Hi. apply (in_map fst) in Hj. exact Hj.
Qed.

Lemma report_flat files :
  getFilesWithDeadExports files = flat_map (entryOf files) (indexed files).
Proof.
  unfold getFilesWithDeadExports.
  rewrite report_from; [reflexivity | apply MapFacts.indexed_NoDup |].
  reflexivity.
Qed.

Lemma flat_get files l i :
  NoDup (map fst l) ->
  forall dead,
    JsMap.get (flat_map (entryOf files) l) i = Some dead <->
    exists A, In (i, A) l /\ dead <> [] /\
              dead = deadNames (importCountsOf i A files).
Proof.
  induction l as [|[j B] l IH]; intros Hnd dead; simpl.
  - split; [discriminate | intros (A & [] & _)].
  - inversion Hnd as [|? ? Hj Hnd']; subst.
    rewrite MapFacts.report_get_app. unfold entryOf at 1. simpl.
    destruct (deadNames (importCountsOf j B files)) as [|d ds] eqn:E; simpl.
    + rewrite (IH Hnd'). split.
      * intros (A & HA & Hd). exists A. auto.
      * intros (A & [HA | HA] & Hne & Hd); [|eauto].
        inversion HA; subst. congruence.
    + destruct (Nat.eqb_spec i j) as [->|Hne].
      * split.
        -- intro H. inversion H; subst. exists B.
           repeat split; [now left | discriminate | congruence].
        -- intros (A & [HA | HA] & _ & Hd).
           ++ inversion HA; subst. congruence.
           ++ exfalso. apply Hj. apply (in_map fst) in HA. exact HA.
      * rewrite (IH Hnd'). split.
        -- intros (A & HA & Hd). exists A. auto.
        -- intros (A & [HA | HA] & Hd); [congruence | eauto].
Qed.

(** The entry of the report under the file at position [i]: the dead
    names of that file, and no entry when there is none. *)
Lemma report_get files i dead :
  JsMap.get (getFilesWithDeadExports files) i = Some dead <->
  exists A, nth_error files i = Some A /\ dead <> [] /\
            dead = deadNames (importCountsOf i A files).
Proof.
  rewrite report_flat, (flat_get files _ i (MapFacts.indexed_NoDup files)).
  split; intros (A & HA & H); exists A;
    (split; [apply MapFacts.indexed_In; exact HA | exact H]).
Qed.

End EngineFacts.
Import EngineFacts.

(** ** The counters of one file *)

Module CounterFacts.

(** The spread in the reducer copies the object as it is. *)
Lemma initCounts_from exports_ :
  forall o, canon o ->
    fold_left (fun map_ exp => JsObject.set (spread map_) exp (Num 0))
              exports_ o = plainInit exports_ o
    /\ canon (plainInit exports_ o).
Proof.
  induction exports_ as [|e es IH]; intros o Ho; simpl; [auto|].
  rewrite (spread_canon o Ho). apply IH. apply canon_set. assumption.
Qed.

Lemma initCounts_plain exports_ :
  initCounts exports_ = plainInit exports_ JsObject.empty.
Proof. apply initCounts_from. constructor. Qed.

Lemma initCounts_canon exports_ : canon (initCounts exports_).
Proof.
  rewrite initCounts_plain.
  apply (initCounts_from exports_ JsObject.empty). constructor.
Qed.

Lemma plainInit_get exports_ :
  forall o k,
    get (plainInit exports_ o) k
    = if existsb (str_eqb k) exports_ then Some (Num 0) else get o k.
Proof.
  induction exports_ as [|e es IH]; intros o k; simpl; [reflexivity|].
  unfold plainInit in IH. rewrite IH, get_set.
  destruct (str_eqb k e), (existsb (str_eqb k) es); reflexivity.
Qed.

(** Every exported name starts with a counter of zero, and nothing else
    has a counter. *)
Lemma initCounts_get exports_ k :
  get (initCounts exports_) k
  = if existsb (str_eqb k) exports_ then Some (Num 0) else None.
Proof. rewrite initCounts_plain. apply plainInit_get. Qed.

Lemma initCounts_keys exports_ k :
  In k (keys (initCounts exports_)) <-> In k exports_.
Proof.
  pose proof (initCounts_get exports_ k) as G.
  pose proof (get_None (initCounts exports_) k) as Hn.
  pose proof (existsb_str k exports_) as Hx.
  destruct (existsb (str_eqb k) exports_).
  - split; [intros _; apply Hx; reflexivity|]. intros _.
    destruct (in_dec str_eq_dec k (keys (initCounts exports_))) as [|n];
      [assumption|]. apply Hn in n. congruence.
  - split.
    + intro Hin. exfalso. apply Hn in G. auto.
    + intro Hin. apply Hx in Hin. discriminate.
Qed.

Lemma incr_get o k k' :
  get (incr o k) k' = if str_eqb k' k then Some (succ (get o k)) else get o k'.
Proof. unfold incr. apply get_set. Qed.

(** Scanning one file B adds to a counter once for every occurrence of
    its name in the exports of file A. *)
Lemma scanFile_get exportsA contentsB :
  forall counts name n,
    get counts name = Some (Num n) ->
    get (scanFile exportsA contentsB counts) name
    = Some (Num (n + (if isImported name contentsB
                      then N.of_nat (count_occ str_eq_dec exportsA name)
                      else 0))).
Proof.
  unfold scanFile.
  induction exportsA as [|e es IH]; intros counts name n H; simpl.
  - rewrite H. destruct (isImported name contentsB); do 2 f_equal; lia.
  - destruct (str_eq_dec e name) as [->|Hne].
    + destruct (isImported name contentsB) eqn:E.
      * rewrite (IH _ name (n + 1)%N).
        -- rewrite E. do 2 f_equal. lia.
        -- rewrite incr_get, str_eqb_refl, H. reflexivity.
      * rewrite (IH _ name n H), E. reflexivity.
    + apply IH. destruct (isImported e contentsB); [|assumption].
      rewrite incr_get. apply not_eq_sym in Hne.
      apply str_eqb_neq in Hne. rewrite Hne. assumption.
Qed.

Lemma scanFile_keys exportsA contentsB :
  forall counts,
    (forall e, In e exportsA -> get counts e <> None) ->
    keys (scanFile exportsA contentsB counts) = keys counts
    /\ forall k, get counts k <> None ->
                 get (scanFile exportsA contentsB counts) k <> None.
Proof.
  unfold scanFile.
  induction exportsA as [|e es IH]; intros counts H; simpl; [auto|].
  assert (He : get counts e <> None) by (apply H; now left).
  destruct (isImported e contentsB).
  - assert (P : forall k, get counts k <> None ->
                          get (incr counts e) k <> None).
    { intros k Hk. rewrite incr_get. destruct (str_eqb k e); congruence. }
    destruct (IH (incr counts e)) as [K G].
    { intros x Hx. apply P, H. now right. }
    split.
    + rewrite K. unfold incr. apply keys_set_present. assumption.
    + intros k Hk. apply G, P, Hk.
  - apply IH. intros x Hx. apply H. now right.
Qed.

Lemma scanList_keys a exportsA l :
  forall counts,
    (forall e, In e exportsA -> get counts e <> None) ->
    keys (fold_left (scanStep a exportsA) l counts) = keys counts.
Proof.
  induction l as [|[j B] l IH]; intros counts H; simpl; [reflexivity|].
  unfold scanStep at 2. simpl. destruct (Nat.eqb a j); [auto|].
  destruct (scanFile_keys exportsA (contents B) counts H) as [K G].
  rewrite IH; [exact K|]. intros e He. apply G, H, He.
Qed.

(** Counters never go down. *)
Lemma scanList_mono a exportsA l :
  forall counts name n,
    get counts name = Some (Num n) ->
    exists n', get (fold_left (scanStep a exportsA) l counts) name
               = Some (Num n') /\ (n <= n')%N.
Proof.
  induction l as [|[j B] l IH]; intros counts name n H; simpl.
  - exists n. split; [assumption | lia].
  - unfold scanStep at 2. simpl. destruct (Nat.eqb a j); [auto|].
    pose proof (scanFile_get exportsA (contents B) counts name n H) as S.
    destruct (IH _ _ _ S) as (n' & Hn' & Hle).
    exists n'. split; [assumption | lia].
Qed.

(** A counter stays where it is when no other file imports the name. *)
Lemma scanList_unused a exportsA l :
  forall counts name n,
    (forall j B, In (j, B) l -> j <> a ->
                 isImported name (contents B) = false) ->
    get counts name = Some (Num n) ->
    get (fold_left (scanStep a exportsA) l counts) name = Some (Num n).
Proof.
  induction l as [|[j B] l IH]; intros counts name n Hl H; simpl;
    [assumption|].
  assert (Hl' : forall j' B', In (j', B') l -> j' <> a ->
                  isImported name (contents B') = false)
    by (intros; eapply Hl; [right|]; eassumption).
  unfold scanStep at 2. simpl. destruct (Nat.eqb_spec a j) as [->|Hne];
    [auto|].
  apply IH; [assumption|].
  rewrite (scanFile_get _ _ _ _ _ H), (Hl j B); [|now left | congruence].
  do 2 f_equal. lia.
Qed.

(** A counter ends above zero when some other file imports the name. *)
Lemma scanList_used a exportsA l :
  forall counts name n j B,
    In (j, B) l -> j <> a ->
    isImported name (contents B) = true ->
    In name exportsA ->
    get counts name = Some (Num n) ->
    exists n', get (fold_left (scanStep a exportsA) l counts) name
               = Some (Num n') /\ (n < n')%N.
Proof.
  induction l as [|[j0 B0] l IH]; intros counts name n j B Hin Hj Hi He H;
    [destruct Hin|]. simpl. unfold scanStep at 2. simpl.
  destruct Hin as [Hin | Hin].
  - inversion Hin; subst j0 B0.
    destruct (Nat.eqb_spec a j) as [->|_]; [congruence|].
    pose proof (scanFile_get exportsA (contents B) counts name n H) as S.
    rewrite Hi in S.
    destruct (scanList_mono a exportsA l _ _ _ S) as (n' & Hn' & Hle).
    exists n'. split; [assumption|].
    assert (0 < count_occ str_eq_dec exportsA name)
      by (apply count_occ_In; assumption). lia.
  - destruct (Nat.eqb a j0); [eauto|].
    pose proof (scanFile_get exportsA (contents B0) counts name n H) as S.
    destruct (IH _ _ _ _ _ Hin Hj Hi He S) as (n' & Hn' & Hlt).
    exists n'. split; [assumption | lia].
Qed.

Lemma importCountsOf_eq a fileA files :
  importCountsOf a fileA files
  = fold_left (scanStep a (exports fileA)) (indexed files)
              (initCounts (exports fileA)).
Proof. reflexivity. Qed.

Lemma initCounts_defined exports_ e :
  In e exports_ -> get (initCounts exports_) e <> None.
Proof.
  intro H. rewrite initCounts_get.
  apply existsb_str in H. rewrite H. discriminate.
Qed.

(** The keys of the final counters are those of the initial ones, in
    the same order. *)
Lemma importCountsOf_keys a fileA files :
  keys (importCountsOf a fileA files) = keys (initCounts (exports fileA)).
Proof.
  rewrite importCountsOf_eq. apply scanList_keys.
  apply initCounts_defined.
Qed.

Lemma importCountsOf_canon a fileA files :
  canon (importCountsOf a fileA files).
Proof.
  unfold canon. rewrite importCountsOf_keys. apply initCounts_canon.
Qed.

Lemma deadNames_filter o :
  NoDup (keys o) -> deadNames o = filter (dead_in o) (keys o).
Proof.
  induction o as [|[k v] o IH]; intro Hnd; [reflexivity|].
  inversion Hnd as [|? ? Hk Hnd']; subst.
  rewrite deadNames_cons. simpl keys. simpl filter.
  assert (F : filter (dead_in ((k, v) :: o)) (keys o)
              = filter (dead_in o) (keys o)).
  { apply filter_ext_in. intros x Hx. unfold dead_in. simpl.
    destruct (str_eqb x k) eqn:E; [|reflexivity].
    apply str_eqb_eq in E. subst. contradiction. }
  rewrite F, <- (IH Hnd'). unfold dead_in at 1. simpl.
  rewrite str_eqb_refl. destruct (gt0 v); reflexivity.
Qed.

Lemma deadNames_In a fileA files name :
  In name (deadNames (importCountsOf a fileA files)) <->
  In name (exports fileA) /\
  dead_in (importCountsOf a fileA files) name = true.
Proof.
  rewrite deadNames_filter
    by (apply canon_NoDup, importCountsOf_canon).
  rewrite filter_In, importCountsOf_keys, initCounts_keys. tauto.
Qed.

End CounterFacts.
Import CounterFacts.

(** ** Declaration order *)

Module OrderFacts.

Lemma filter_keys_create_index o i k v :
  array_index k = Some i ->
  filter non_index (keys (create_index o i k v))
  = filter non_index (keys o).
Proof.
  intro Hi.
  assert (Hk : non_index k = false) by (unfold non_index; now rewrite Hi).
  induction o as [|[k0 v0] o IH]; simpl.
  - now rewrite Hk.
  - destruct (array_index k0) as [j|] eqn:Ej;
      [destruct (j <? i)%N|]; simpl; rewrite ?Hk, ?IH; reflexivity.
Qed.

Lemma plainInit_order exports_ :
  forall o, canon o ->
    filter non_index (keys (plainInit exports_ o))
    = filter non_index (keys o)
      ++ uniq (filter non_index (keys o)) (filter non_index exports_).
Proof.
  induction exports_ as [|e es IH]; intros o Ho; simpl.
  - now rewrite app_nil_r.
  - change (plainInit (e :: es) o)
      with (plainInit es (JsObject.set o e (Num 0))).
    rewrite (IH _ (canon_set o e (Num 0) Ho)).
    unfold JsObject.set. destruct (get o e) as [v|] eqn:G.
    + rewrite keys_replace.
      destruct (non_index e) eqn:Ne; [|reflexivity]. simpl.
      assert (X : existsb (str_eqb e) (filter non_index (keys o)) = true).
      { apply existsb_str, filter_In. split; [|assumption].
        apply get_Some_In in G. apply (in_map fst) in G. exact G. }
      now rewrite X.
    + unfold create. destruct (array_index e) as [i|] eqn:Ei.
      * assert (Ne : non_index e = false)
          by (unfold non_index; now rewrite Ei).
        rewrite Ne, (filter_keys_create_index o i e (Num 0) Ei).
        reflexivity.
      * assert (Ne : non_index e = true)
          by (unfold non_index; now rewrite Ei).
        assert (K : keys (o ++ [(e, Num 0)]) = keys o ++ [e])
          by (unfold keys; rewrite map_app; reflexivity).
        rewrite Ne, K, filter_app. simpl. rewrite Ne.
        assert (X : existsb (str_eqb e) (filter non_index (keys o)) = false).
        { destruct (existsb _ _) eqn:X; [|reflexivity].
          apply existsb_str, filter_In in X. apply get_None in G. tauto. }
        rewrite X, <- app_assoc. reflexivity.
Qed.

(** The keys of the counters that are not array indices are the
    exported names that are not, in the order of their first
    occurrence. *)
Lemma initCounts_order exports_ :
  filter non_index (keys (initCounts exports_))
  = first_occurrences (filter non_index exports_).
Proof.
  rewrite initCounts_plain, plainInit_order by constructor. reflexivity.
Qed.

Lemma filter_comm {A} (f g : A -> bool) l :
  filter f (filter g l) = filter g (filter f l).
Proof.
  induction l as [|a l IH]; simpl; [reflexivity|].
  destruct (g a) eqn:G, (f a) eqn:F; simpl; rewrite ?G, ?F, IH; reflexivity.
Qed.

Lemma filter_all {A} (f : A -> bool) l :
  Forall (fun x => f x = true) l -> filter f l = l.
Proof.
  induction 1 as [|a l Ha Hl IH]; simpl; [reflexivity|].
  now rewrite Ha, IH.
Qed.

End OrderFacts.
Import OrderFacts.

(** ** A file's counters do not depend on the file's own text *)

Module SelfFacts.

Lemma scan_skip a exportsA :
  forall (l l' : list FileDetails) s counts,
    length l' = length l ->
    (forall j, s + j <> a -> nth_error l' j = nth_error l j) ->
    fold_left (scanStep a exportsA) (combine (seq s (length l')) l') counts
    = fold_left (scanStep a exportsA) (combine (seq s (length l)) l) counts.
Proof.
  induction l as [|B l IH]; intros [|B' l'] s counts L H;
    try discriminate L; [reflexivity|]. simpl.
  simpl in L. injection L as L.
  assert (E : scanStep a exportsA counts (s, B')
              = scanStep a exportsA counts (s, B)).
  { unfold scanStep. simpl. destruct (Nat.eqb_spec a s) as [->|Hne];
      [reflexivity|].
    assert (H0 : nth_error (B' :: l') 0 = nth_error (B :: l) 0)
      by (apply H; lia).
    simpl in H0. inversion H0. reflexivity. }
  rewrite E. apply IH; [assumption|].
  intros j Hj. apply (H (S j)). lia.
Qed.

Lemma importCountsOf_self a fileA fileA' files files' :
  length files' = length files ->
  exports fileA' = exports fileA ->
  (forall j, j <> a -> nth_error files' j = nth_error files j) ->
  importCountsOf a fileA' files' = importCountsOf a fileA files.
Proof.
  intros L E H. rewrite !importCountsOf_eq, E. unfold indexed.
  apply scan_skip; [assumption|]. intros j Hj. apply H. lia.
Qed.

Lemma report_get_eq files i fileA :
  nth_error files i = Some fileA ->
  JsMap.get (getFilesWithDeadExports files) i
  = match deadNames (importCountsOf i fileA files) with
    | [] => None
    | d => Some d
    end.
Proof.
  intro HA.
  destruct (JsMap.get (getFilesWithDeadExports files) i) as [dead|] eqn:G.
  - apply report_get in G. destruct G as (A' & HA' & Hne & ->).
    assert (A' = fileA) by congruence. subst A'.
    destruct (deadNames (importCountsOf i fileA files));
      [congruence | reflexivity].
  - destruct (deadNames (importCountsOf i fileA files)) as [|d ds] eqn:E;
      [reflexivity|].
    assert (S : JsMap.get (getFilesWithDeadExports files) i = Some (d :: ds)).
    { apply report_get. exists fileA.
      repeat split; [assumption | discriminate | congruence]. }
    congruence.
Qed.

End SelfFacts.
Import SelfFacts.

(** ** The pipeline on two small trees *)

(** [a.ts] exports [foo], unused, and [bar], which [b.ts] imports: the
    report has [a.ts] alone, with [foo]. *)
Example tree_with_one_dead_export :
  analyse (fun p => if str_eqb p (lit "a.ts")
                    then Some (lit "export function foo(){} export const bar = 1")
                    else if str_eqb p (lit "b.ts")
                    then Some (lit "import { bar } from './a'")
                    else None)
          [lit "a.ts"; lit "b.ts"]
  = Some [(0, [lit "foo"])].
Proof. vm_compute. reflexivity. Qed.

(** Two files, each with a function nobody imports: both are reported. *)
Example tree_with_two_dead_exports :
  analyse (fun p => if str_eqb p (lit "a.ts")
                    then Some (lit "export function f(){}")
                    else if str_eqb p (lit "b.ts")
                    then Some (lit "export function g(){}")
                    else None)
          [lit "a.ts"; lit "b.ts"]
  = Some [(0, [lit "f"]); (1, [lit "g"])].
Proof. vm_compute. reflexivity. Qed.

(** An unreadable file rejects the whole run. *)
Example unreadable_file_rejects :
  analyse (fun _ => None) [lit "a.ts"] = None.
Proof. reflexivity. Qed.

(* ================================================================== *)
(** * The claims *)

(** The detector finds a named import wherever it stands in the text. *)
Lemma named_import_detected name pre spec post :
  isImported name (pre ++ named_import name spec ++ post) = true.
Proof.
  apply isImported_true_iff.
  exists pre,
    (lit "import" ++ lit " { " ++ name ++ lit " } " ++ lit "from" ++ lit " "),
    (spec ++ post).
  split.
  - unfold named_import. rewrite <- !app_assoc. reflexivity.
  - apply import_pattern_word; (discriminate || reflexivity).
Qed.

(** The last loop skips a name that some other file imports. *)
Lemma counter_used files i j A B name :
  nth_error files i = Some A -> nth_error files j = Some B -> i <> j ->
  In name (exports A) ->
  isImported name (contents B) = true ->
  dead_in (importCountsOf i A files) name = false.
Proof.
  intros HA HB Hij Hin Himp.
  assert (G0 : get (initCounts (exports A)) name = Some (Num 0)).
  { rewrite initCounts_get. apply existsb_str in Hin. now rewrite Hin. }
  destruct (scanList_used i (exports A) (indexed files)
              (initCounts (exports A)) name 0%N j B)
    as (n' & Hn' & Hlt); auto.
  { apply MapFacts.indexed_In. assumption. }
  unfold dead_in. rewrite importCountsOf_eq, Hn'. simpl.
  apply negb_false_iff, N.ltb_lt. lia.
Qed.

(** The last loop reports a name that no other file imports. *)
Lemma counter_unused files i A name :
  nth_error files i = Some A ->
  In name (exports A) ->
  (forall j B, j <> i -> nth_error files j = Some B ->
               isImported name (contents B) = false) ->
  dead_in (importCountsOf i A files) name = true.
Proof.
  intros HA Hin Hno.
  assert (G0 : get (initCounts (exports A)) name = Some (Num 0)).
  { rewrite initCounts_get. apply existsb_str in Hin. now rewrite Hin. }
  unfold dead_in. rewrite importCountsOf_eq.
  rewrite (scanList_unused i (exports A) (indexed files)
             (initCounts (exports A)) name 0%N);
    [reflexivity | | assumption].
  intros j B HjB Hj. apply (Hno j B Hj). apply MapFacts.indexed_In. exact HjB.
Qed.

(** C1: an export [name] of file A that another file B imports with a
    one-line [import { name } from ...] is detected by [isImported] and is
    not in the dead-export list the report records for A.  The files are
    records as [getExports] builds them: their names are free of pattern
    syntax ([getExports_literal]). *)
Theorem named_import_keeps_export_alive :
  forall files i j A B name pre spec post,
    Forall literal_exports files ->
    nth_error files i = Some A ->
    nth_error files j = Some B ->
    i <> j ->
    In name (exports A) ->
    contents B = pre ++ named_import name spec ++ post ->
    isImported name (contents B) = true /\
    forall dead,
      JsMap.get (getFilesWithDeadExports files) i = Some dead ->
      ~ In name dead.
Proof.
  intros files i j A B name pre spec post _ HA HB Hij Hin Hc.
  assert (Himp : isImported name (contents B) = true)
    by (rewrite Hc; apply named_import_detected).
  split; [assumption|].
  intros dead Hd Hdead. apply report_get in Hd.
  destruct Hd as (A' & HA' & _ & ->).
  assert (A' = A) by congruence. subst A'.
  apply deadNames_In in Hdead. destruct Hdead as [_ Hdead].
  rewrite (counter_used files i j A B name HA HB Hij Hin Himp) in Hdead.
  discriminate.
Qed.

Lemma named_import_keeps_export_alive_witness :
  isImported (lit "bar") (contents file_b_imports_bar) = true /\
  forall dead,
    JsMap.get (getFilesWithDeadExports [file_a_bar; file_b_imports_bar]) 0
    = Some dead ->
    ~ In (lit "bar") dead.
Proof.
  apply (named_import_keeps_export_alive
           [file_a_bar; file_b_imports_bar] 0 1
           file_a_bar file_b_imports_bar (lit "bar") [] (lit "'./a'") []).
  - repeat constructor.
  - reflexivity.
  - reflexivity.
  - discriminate.
  - vm_compute. left. reflexivity.
  - reflexivity.
Defined.

(** C2, as amended: scanning one file B adds to A's counter for a name the
    number of occurrences of the name in A's exports when [isImported]
    holds for the name and B's text, and nothing otherwise; so at most
    one when the name occurs once. *)
Theorem scan_adds_once_per_occurrence :
  forall A B counts name n,
    pattern_literal name = true ->
    get counts name = Some (Num n) ->
    get (scanFile (exports A) (contents B) counts) name
    = Some (Num (n + (if isImported name (contents B)
                      then N.of_nat (count_occ str_eq_dec (exports A) name)
                      else 0)))
    /\ (count_occ str_eq_dec (exports A) name <= 1 ->
        exists n', get (scanFile (exports A) (contents B) counts) name
                   = Some (Num n') /\ (n' <= n + 1)%N).
Proof.
  intros A B counts name n _ H.
  pose proof (scanFile_get (exports A) (contents B) counts name n H) as S.
  split; [exact S|]. intro Hc. eexists. split; [exact S|].
  destruct (isImported name (contents B)); lia.
Qed.

Lemma scan_adds_once_per_occurrence_witness :
  get (scanFile (exports file_a_bar) (contents file_b_imports_bar)
                (initCounts (exports file_a_bar))) (lit "bar")
  = Some (Num 1)
  /\ exists n', get (scanFile (exports file_a_bar)
                              (contents file_b_imports_bar)
                              (initCounts (exports file_a_bar))) (lit "bar")
                = Some (Num n') /\ (n' <= 0 + 1)%N.
Proof.
  destruct (scan_adds_once_per_occurrence
              file_a_bar file_b_imports_bar
              (initCounts (exports file_a_bar)) (lit "bar") 0%N
              eq_refl eq_refl) as [H1 H2].
  split; [exact H1|]. apply H2. vm_compute. lia.
Defined.

(** C2, as stated, fails: a name exported twice by A has its counter
    moved from 0 to 2 by the scan of a single file B. *)
Lemma duplicate_export_counted_twice :
  exports file_a_foo_twice = [lit "foo"; lit "foo"] /\
  get (initCounts (exports file_a_foo_twice)) (lit "foo") = Some (Num 0) /\
  get (scanFile (exports file_a_foo_twice) (contents file_b_imports_foo)
                (initCounts (exports file_a_foo_twice))) (lit "foo")
  = Some (Num 2) /\
  ~ (2 <= 0 + 1)%N.
Proof.
  repeat split; try (vm_compute; reflexivity). lia.
Qed.

(** C3: the extractor does not recognise [export async function foo() {}]:
    the list of declaration keywords has [default async function] but no
    [async function], so the file has no exports at all. *)
Theorem export_async_function_missed :
  getExports (fun _ => Some (lit "export async function foo() {}"))
             [lit "a.ts"]
  = Some [mkFile (lit "a.ts") (lit "export async function foo() {}") []]
  /\ extract (lit "export default async function foo() {}") = [lit "foo"].
Proof. split; vm_compute; reflexivity. Qed.

(** C4: no token boundary is asked around the name: the name inside a
    longer identifier of an import statement is detected. *)
Theorem name_inside_identifier_detected :
  forall name a b spec,
    pattern_literal name = true ->
    forallb word a = true ->
    forallb word b = true ->
    isImported name (lit "import " ++ a ++ name ++ b ++ lit " from " ++ spec)
    = true.
Proof.
  intros name a b spec _ Ha Hb.
  apply isImported_true_iff.
  exists [],
    (lit "import" ++ (SPACE :: a) ++ name ++ (b ++ [SPACE])
       ++ lit "from" ++ lit " "),
    spec.
  split.
  - simpl. rewrite <- !app_assoc. reflexivity.
  - assert (S : forall w, forallb word w = true -> forallb spanned w = true).
    { intros w Hw. rewrite forallb_forall in *.
      intros c Hc. apply word_spanned, Hw, Hc. }
    apply import_pattern_word; try discriminate; try reflexivity.
    + simpl. apply S. assumption.
    + destruct b; discriminate.
    + rewrite forallb_app, (S b Hb). reflexivity.
Qed.

Lemma name_inside_identifier_detected_witness :
  isImported (lit "Foo") (lit "import useFoo from 'x'") = true.
Proof.
  exact (name_inside_identifier_detected
           (lit "Foo") (lit "use") [] (lit "'x'")
           eq_refl eq_refl eq_refl).
Defined.

(** C5: the match is greedy and spans the whole text: the only import
    statement imports the unrelated name [A], the target name [Foo]
    occurs in later code, a [from] comes after it, and [isImported] holds
    for the whole text although it holds for no statement of it. *)
Theorem greedy_span_false_positive :
  exists statement code later,
    isImported (lit "A") statement = true /\
    isImported (lit "Foo") statement = false /\
    occurs (lit "Foo") statement = false /\
    occurs (lit "import") code = false /\
    occurs (lit "Foo") code = true /\
    isImported (lit "Foo") code = false /\
    occurs (lit "import") later = false /\
    occurs (lit "from") later = true /\
    isImported (lit "Foo") later = false /\
    isImported (lit "Foo") (statement ++ [LF] ++ code ++ [LF] ++ later)
    = true.
Proof.
  exists (lit "import A from 'x';"), (lit "const Foo = 1;"),
         (lit "export * from './y';").
  repeat split; vm_compute; reflexivity.
Qed.

(** C6: a file is never scanned against itself.  An export that no other
    file imports is reported dead whatever the file's own text imports,
    and the entry of a file in the report does not change when only the
    text of that file changes.  The files are records as [getExports]
    builds them. *)
Theorem self_import_is_skipped :
  forall files i A name,
    Forall literal_exports files ->
    nth_error files i = Some A ->
    In name (exports A) ->
    (forall j B, j <> i -> nth_error files j = Some B ->
                 isImported name (contents B) = false) ->
    (exists dead,
        JsMap.get (getFilesWithDeadExports files) i = Some dead /\
        In name dead)
    /\ forall files' A',
        length files' = length files ->
        nth_error files' i = Some A' ->
        exports A' = exports A ->
        (forall j, j <> i -> nth_error files' j = nth_error files j) ->
        JsMap.get (getFilesWithDeadExports files') i
        = JsMap.get (getFilesWithDeadExports files) i.
Proof.
  intros files i A name _ HA Hin Hno. split.
  - assert (D : In name (deadNames (importCountsOf i A files))).
    { apply deadNames_In. split; [assumption|].
      apply counter_unused; assumption. }
    exists (deadNames (importCountsOf i A files)). split; [|exact D].
    apply report_get. exists A. repeat split; [assumption|].
    intro E. rewrite E in D. destruct D.
  - intros files' A' L HA' E H.
    rewrite (report_get_eq files' i A' HA'), (report_get_eq files i A HA).
    rewrite (importCountsOf_self i A A' files files' L E H). reflexivity.
Qed.

Lemma self_import_is_skipped_witness :
  isImported (lit "foo") (contents file_a_self_import) = true /\
  exists dead,
    JsMap.get (getFilesWithDeadExports [file_a_self_import; file_b_plain]) 0
    = Some dead /\ In (lit "foo") dead.
Proof.
  split; [reflexivity|].
  apply (self_import_is_skipped
           [file_a_self_import; file_b_plain] 0
           file_a_self_import (lit "foo")).
  - repeat constructor.
  - reflexivity.
  - vm_compute. left. reflexivity.
  - intros j B Hj H. destruct j as [|[|j]].
    + congruence.
    + simpl in H. inversion H. reflexivity.
    + destruct j; discriminate H.
Defined.

(** C7, as amended: the names of a dead-export list that are not array
    indices are in the order of their first occurrence in the exports of
    the file; the names that are array indices (the decimal text of an
    integer below 2^32 - 1) come before all the others, in ascending
    numeric order.  When no exported name is an array index, the whole
    list is in declaration order. *)
Theorem dead_list_order :
  forall files i A dead,
    nth_error files i = Some A ->
    JsMap.get (getFilesWithDeadExports files) i = Some dead ->
    declaration_order (filter non_index (exports A)) (filter non_index dead)
    /\ StronglySorted key_before dead
    /\ (Forall (fun n => non_index n = true) (exports A) ->
        declaration_order (exports A) dead).
Proof.
  intros files i A dead HA Hd. apply report_get in Hd.
  destruct Hd as (A' & HA' & _ & ->).
  assert (A' = A) by congruence. subst A'.
  set (o := importCountsOf i A files).
  assert (Hc : canon o) by apply importCountsOf_canon.
  assert (E : deadNames o = filter (dead_in o) (keys (initCounts (exports A)))).
  { rewrite (deadNames_filter o (canon_NoDup o Hc)).
    unfold o. now rewrite importCountsOf_keys. }
  assert (O : declaration_order (filter non_index (exports A))
                                (filter non_index (deadNames o))).
  { exists (dead_in o).
    now rewrite E, filter_comm, initCounts_order. }
  split; [exact O|]. split.
  - rewrite E. apply sorted_filter. apply initCounts_canon.
  - intro Hall.
    assert (F : filter non_index (deadNames o) = deadNames o).
    { apply filter_all, Forall_forall. intros x Hx.
      apply deadNames_In in Hx. rewrite Forall_forall in Hall.
      apply Hall. tauto. }
    rewrite (filter_all non_index (exports A) Hall), F in O. exact O.
Qed.

Lemma dead_list_order_witness :
  declaration_order (filter non_index (exports file_a_foo_bar))
                    (filter non_index [lit "foo"; lit "bar"])
  /\ StronglySorted key_before [lit "foo"; lit "bar"]
  /\ declaration_order (exports file_a_foo_bar) [lit "foo"; lit "bar"].
Proof.
  destruct (dead_list_order [file_a_foo_bar] 0 file_a_foo_bar
              [lit "foo"; lit "bar"] eq_refl eq_refl) as (H1 & H2 & H3).
  split; [exact H1|]. split; [exact H2|]. apply H3. repeat constructor.
Defined.

(** C7, as stated, fails: the file exports [b] and then [42], and its
    dead-export list is [42], [b]. *)
Lemma integer_name_listed_first :
  exports file_a_default_42 = [lit "b"; lit "42"] /\
  JsMap.get (getFilesWithDeadExports [file_a_default_42]) 0
  = Some [lit "42"; lit "b"] /\
  ~ declaration_order (exports file_a_default_42) [lit "42"; lit "b"].
Proof.
  split; [reflexivity|]. split; [reflexivity|].
  intros [keep H]. vm_compute in H.
  repeat match type of H with
         | context [if ?c then _ else _] => destruct c
         end; inversion H.
Qed.

(** C8: the name is the last piece of the match split at single spaces,
    so a tab or a newline before the identifier leaves the keyword in the
    name; with spaces, however many, the name is the identifier. *)
Theorem tab_separator_keeps_keyword :
  extract (lit "export const" ++ [TAB] ++ lit "foo = 1")
  = [lit "const" ++ [TAB] ++ lit "foo"]
  /\ extract (lit "export" ++ [LF] ++ lit "function" ++ [LF] ++ lit "foo()")
     = [lit "export" ++ [LF] ++ lit "function" ++ [LF] ++ lit "foo"]
  /\ extract (lit "export   const  foo = 1") = [lit "foo"].
Proof. repeat split; vm_compute; reflexivity. Qed.

(** C9: every name of a dead-export list of the report is one of the
    exports of the file the list is recorded for. *)
Theorem dead_names_are_exports :
  forall files i dead name,
    JsMap.get (getFilesWithDeadExports files) i = Some dead ->
    In name dead ->
    exists F, nth_error files i = Some F /\ In name (exports F).
Proof.
  intros files i dead name Hd Hin. apply report_get in Hd.
  destruct Hd as (F & HF & _ & ->). exists F. split; [assumption|].
  apply deadNames_In in Hin. tauto.
Qed.

Lemma dead_names_are_exports_witness :
  exists F, nth_error [file_a_foo_bar; file_b_imports_bar] 0 = Some F /\
            In (lit "foo") (exports F).
Proof.
  apply (dead_names_are_exports
           [file_a_foo_bar; file_b_imports_bar] 0 [lit "foo"] (lit "foo")).
  - reflexivity.
  - left. reflexivity.
Defined.

(** C10: a name occurs at most once in a dead-export list, also when
    the file exports it several times. *)
Theorem dead_names_listed_once :
  forall files i dead,
    JsMap.get (getFilesWithDeadExports files) i = Some dead ->
    NoDup dead.
Proof.
  intros files i dead Hd. apply report_get in Hd.
  destruct Hd as (F & HF & _ & ->).
  rewrite deadNames_filter by (apply canon_NoDup, importCountsOf_canon).
  apply NoDup_filter, canon_NoDup, importCountsOf_canon.
Qed.

Lemma dead_names_listed_once_witness :
  exports file_a_foo_twice = [lit "foo"; lit "foo"] /\ NoDup [lit "foo"].
Proof.
  split; [reflexivity|].
  apply (dead_names_listed_once [file_a_foo_twice] 0 [lit "foo"]).
  reflexivity.
Defined.

(* ================================================================== *)
(** * Further properties of the code *)

(** ** The import detector *)

Module DetectorFacts.

Lemma lang_seq_inv r1 r2 w :
  lang (Seq r1 r2) w ->
  exists w1 w2, w = w1 ++ w2 /\ lang r1 w1 /\ lang r2 w2.
Proof. intro H. inversion H; subst. eauto. Qed.

Lemma lang_Str_inv s w : lang (Str s) w -> w = s.
Proof.
  revert w. induction s as [|c s IH]; intros w H; simpl in H;
    inversion H; subst; [reflexivity|].
  inversion H2; subst. apply char_eqb_eq in H1. subst.
  simpl. f_equal. apply IH. assumption.
Qed.

Lemma lang_plus_chr_inv p w :
  lang (Plus (Chr p)) w -> w <> [] /\ forallb p w = true.
Proof.
  intro H. remember (Plus (Chr p)) as r eqn:E. revert E.
  induction H; intro E; inversion E; subst.
  - inversion H; subst. simpl. rewrite H1. split; [discriminate|reflexivity].
  - inversion H; subst. destruct (IHlang2 eq_refl) as [_ Hw].
    simpl. rewrite H2, Hw. split; [discriminate|reflexivity].
Qed.

Lemma lang_any_or_newline_inv w :
  lang any_or_newline w -> exists c, w = [c] /\ spanned c = true.
Proof.
  unfold any_or_newline, spanned. intro H.
  inversion H as [| | |? ? ? H1|? ? ? H1| |]; subst;
    inversion H1; subst; eexists; split; try reflexivity.
  - rewrite H2. reflexivity.
  - rewrite H2. apply orb_true_r.
Qed.

Lemma lang_plus_spanned_inv w :
  lang (Plus any_or_newline) w -> w <> [] /\ forallb spanned w = true.
Proof.
  intro H. remember (Plus any_or_newline) as r eqn:E. revert E.
  induction H; intro E; inversion E; subst.
  - apply lang_any_or_newline_inv in H. destruct H as (c & -> & Hc).
    simpl. rewrite Hc. split; [discriminate|reflexivity].
  - apply lang_any_or_newline_inv in H. destruct H as (c & -> & Hc).
    destruct (IHlang2 eq_refl) as [_ Hw].
    simpl. rewrite Hc, Hw. split; [discriminate|reflexivity].
Qed.

Lemma lang_plus_Str_inv s w :
  lang (Plus (Str s)) w -> exists k, w = repeat_str s (S k).
Proof.
  intro H. remember (Plus (Str s)) as r eqn:E. revert E.
  induction H; intro E; inversion E; subst.
  - apply lang_Str_inv in H. subst. exists 0. simpl. now rewrite app_nil_r.
  - apply lang_Str_inv in H. subst.
    destruct (IHlang2 eq_refl) as [k ->]. exists (S k). reflexivity.
Qed.

Lemma lang_plus_Str s k : lang (Plus (Str s)) (repeat_str s (S k)).
Proof.
  induction k as [|k IH].
  - simpl. rewrite app_nil_r. apply lang_plus_one, lang_Str.
  - change (repeat_str s (S (S k))) with (s ++ repeat_str s (S k)).
    apply lang_plus_more; [apply lang_Str | exact IH].
Qed.

(** The words of the import pattern. *)
Lemma import_pattern_lang exportName w :
  lang (import_pattern exportName) w <->
  exists a k b t,
    w = lit "import" ++ a ++ repeat_str exportName (S k) ++ b
          ++ lit "from" ++ t /\
    a <> [] /\ forallb spanned a = true /\
    b <> [] /\ forallb spanned b = true /\
    t <> [] /\ forallb dot t = true.
Proof.
  split.
  - unfold import_pattern. intro H.
    apply lang_seq_inv in H. destruct H as (w1 & r1 & -> & H1 & H).
    apply lang_Str_inv in H1. subst w1.
    apply lang_seq_inv in H. destruct H as (w2 & r2 & -> & H2 & H).
    assert (E2 : w2 = [116%N]).
    { simpl in H2. apply lang_seq_inv in H2.
      destruct H2 as (u & v & -> & Hu & Hv).
      inversion Hu; subst. inversion Hv; subst.
      match goal with H : char_eqb _ _ = true |- _ =>
        apply char_eqb_eq in H; subst end. reflexivity. }
    subst w2.
    apply lang_seq_inv in H. destruct H as (wa & r3 & -> & Ha & H).
    apply lang_plus_spanned_inv in Ha. destruct Ha as [Ha1 Ha2].
    apply lang_seq_inv in H. destruct H as (wn & r4 & -> & Hn & H).
    apply lang_plus_Str_inv in Hn. destruct Hn as [k ->].
    apply lang_seq_inv in H. destruct H as (wb & r5 & -> & Hb & H).
    apply lang_plus_spanned_inv in Hb. destruct Hb as [Hb1 Hb2].
    apply lang_seq_inv in H. destruct H as (wf & wt & -> & Hf & Ht).
    apply lang_Str_inv in Hf. subst wf.
    apply lang_plus_chr_inv in Ht. destruct Ht as [Ht1 Ht2].
    exists wa, k, wb, wt. repeat split; try assumption.
  - intros (a & k & b & t & -> & Ha1 & Ha2 & Hb1 & Hb2 & Ht1 & Ht2).
    unfold import_pattern.
    change (lit "import") with (lit "impor" ++ [116%N]).
    rewrite <- app_assoc.
    apply lang_seq; [apply lang_Str|].
    apply lang_seq.
    { simpl. change [116%N] with ([116%N] ++ @nil char).
      apply lang_seq; constructor. reflexivity. }
    apply lang_seq; [apply lang_plus_spanned; assumption|].
    apply lang_seq; [apply lang_plus_Str|].
    apply lang_seq; [apply lang_plus_spanned; assumption|].
    apply lang_seq; [apply lang_Str|].
    apply lang_plus_chr; assumption.
Qed.

Lemma starts_with_app n rest : starts_with n (n ++ rest) = true.
Proof.
  induction n as [|c n IH]; simpl; [reflexivity|].
  now rewrite char_eqb_refl, IH.
Qed.

Lemma occurs_app n pre post : occurs n (pre ++ n ++ post) = true.
Proof.
  induction pre as [|c pre IH]; simpl.
  - destruct (n ++ post) eqn:E; simpl; rewrite <- E, starts_with_app;
      reflexivity.
  - rewrite IH. apply orb_true_r.
Qed.

End DetectorFacts.
Import DetectorFacts.

(** X1: what the detector accepts.  [isImported] holds exactly for the
    texts that have, in this order: [import]; one or more characters;
    the name, once or several times in a row; one or more characters;
    [from]; one or more characters of the same line.  The characters in
    between are any but CR, U+2028 and U+2029, line feeds included. *)
Theorem isImported_shape :
  forall name text,
    pattern_literal name = true ->
    (isImported name text = true <->
     exists pre a k b t post,
       text = pre ++ lit "import" ++ a ++ repeat_str name (S k) ++ b
                ++ lit "from" ++ t ++ post /\
       a <> [] /\ forallb spanned a = true /\
       b <> [] /\ forallb spanned b = true /\
       t <> [] /\ forallb dot t = true).
Proof.
  intros name text _. rewrite isImported_true_iff. split.
  - intros (pre & w & post & -> & Hw). apply import_pattern_lang in Hw.
    destruct Hw as (a & k & b & t & -> & H).
    exists pre, a, k, b, t, post. split; [|exact H].
    rewrite <- !app_assoc. reflexivity.
  - intros (pre & a & k & b & t & post & -> & H).
    exists pre,
      (lit "import" ++ a ++ repeat_str name (S k) ++ b ++ lit "from" ++ t),
      post.
    split; [rewrite <- !app_assoc; reflexivity|].
    apply import_pattern_lang. exists a, k, b, t. split; [reflexivity|exact H].
Qed.

Lemma isImported_shape_witness :
  isImported (lit "bar") (lit "import { bar } from './a'") = true.
Proof.
  apply (proj2 (isImported_shape (lit "bar") (lit "import { bar } from './a'")
                  eq_refl)).
  exists [], (lit " { "), 0, (lit " } "), (lit " './a'"), [].
  repeat split; try discriminate; reflexivity.
Defined.

(** X2: the detector never accepts a text that lacks [import], the name
    or [from], nor a text with fewer than 13 characters besides the
    name. *)
Theorem isImported_needs_keywords_and_name :
  forall name text,
    pattern_literal name = true ->
    isImported name text = true ->
    occurs (lit "import") text = true /\
    occurs name text = true /\
    occurs (lit "from") text = true /\
    length name + 13 <= length text.
Proof.
  intros name text _ H. apply isImported_true_iff in H.
  destruct H as (pre & w & post & -> & Hw). apply import_pattern_lang in Hw.
  destruct Hw as (a & k & b & t & -> & Ha & _ & Hb & _ & Ht & _).
  repeat split.
  - rewrite <- !app_assoc. apply occurs_app.
  - replace (pre ++ (lit "import" ++ a ++ repeat_str name (S k) ++ b
                       ++ lit "from" ++ t) ++ post)
      with ((pre ++ lit "import" ++ a) ++ name
              ++ (repeat_str name k ++ b ++ lit "from" ++ t ++ post)).
    + apply occurs_app.
    + simpl repeat_str. rewrite <- !app_assoc. reflexivity.
  - replace (pre ++ (lit "import" ++ a ++ repeat_str name (S k) ++ b
                       ++ lit "from" ++ t) ++ post)
      with ((pre ++ lit "import" ++ a ++ repeat_str name (S k) ++ b)
              ++ lit "from" ++ (t ++ post)).
    + apply occurs_app.
    + rewrite <- !app_assoc. reflexivity.
  - simpl repeat_str. rewrite !length_app.
    destruct a; [congruence|]. destruct b; [congruence|].
    destruct t; [congruence|]. simpl. lia.
Qed.

Lemma isImported_needs_keywords_and_name_witness :
  occurs (lit "import") (lit "import { bar } from './a'") = true /\
  occurs (lit "bar") (lit "import { bar } from './a'") = true /\
  occurs (lit "from") (lit "import { bar } from './a'") = true /\
  length (lit "bar") + 13 <= length (lit "import { bar } from './a'").
Proof.
  apply (isImported_needs_keywords_and_name
           (lit "bar") (lit "import { bar } from './a'")); reflexivity.
Defined.

(** X3: the detector scans the whole text: what it accepts, it accepts
    with any text before and after. *)
Theorem isImported_in_larger_text :
  forall name text before after,
    pattern_literal name = true ->
    isImported name text = true ->
    isImported name (before ++ text ++ after) = true.
Proof.
  intros name text before after _ H. apply isImported_true_iff in H.
  destruct H as (pre & w & post & -> & Hw).
  apply isImported_true_iff. exists (before ++ pre), w, (post ++ after).
  split; [rewrite <- !app_assoc; reflexivity | exact Hw].
Qed.

Lemma isImported_in_larger_text_witness :
  isImported (lit "bar")
    (lit "// header" ++ [LF] ++ lit "import { bar } from './a'" ++ [LF]
       ++ lit "bar()") = true.
Proof.
  apply (isImported_in_larger_text
           (lit "bar") (lit "import { bar } from './a'")
           (lit "// header" ++ [LF]) ([LF] ++ lit "bar()"));
    reflexivity.
Defined.

(** ** The cross-reference engine *)

Module ReportFacts.

(** The report in closed form: the files with a dead export, in the
    order of the list, each with its dead names. *)
Lemma report_closed_form files :
  getFilesWithDeadExports files
  = map (fun ia => (fst ia, deadNames (importCountsOf (fst ia) (snd ia) files)))
        (filter (reported files) (indexed files)).
Proof.
  rewrite report_flat. induction (indexed files) as [|ia l IH];
    [reflexivity|].
  cbn [flat_map filter]. rewrite IH.
  assert (R : reported files ia
              = match deadNames (importCountsOf (fst ia) (snd ia) files) with
                | [] => false
                | _ :: _ => true
                end) by reflexivity.
  unfold entryOf at 1.
  destruct (deadNames (importCountsOf (fst ia) (snd ia) files)) eqn:E;
    rewrite R; [reflexivity|]. cbn [map app].
  do 2 f_equal. symmetry. exact E.
Qed.

Lemma seq_sorted n : forall s, StronglySorted lt (seq s n).
Proof.
  induction n as [|n IH]; intro s; simpl; constructor; [apply IH|].
  apply Forall_forall. intros x Hx. apply in_seq in Hx. lia.
Qed.

Lemma map_fst_filter_indexed {A} (f : nat * A -> bool) (l : list A) :
  StronglySorted lt (map fst (filter f (indexed l))).
Proof.
  assert (G : forall (l0 : list (nat * A)),
             StronglySorted lt (map fst l0) ->
             StronglySorted lt (map fst (filter f l0))).
  { induction l0 as [|x l0 IH]; simpl; intro H; [constructor|].
    inversion H as [|? ? Hs Ha]; subst.
    destruct (f x); simpl; [|auto]. constructor; [auto|].
    rewrite Forall_forall in *. intros y Hy. apply Ha.
    apply in_map_iff in Hy. destruct Hy as (z & <- & Hz).
    apply filter_In in Hz. apply in_map. tauto. }
  apply G. rewrite MapFacts.indexed_keys. apply seq_sorted.
Qed.

Lemma report_entries files :
  Forall (fun e => fst e < length files /\ snd e <> [])
         (getFilesWithDeadExports files).
Proof.
  rewrite report_closed_form. apply Forall_forall. intros e He.
  apply in_map_iff in He. destruct He as ([i A] & <- & Hia).
  apply filter_In in Hia. destruct Hia as [Hin Hrep]. simpl. split.
  - apply MapFacts.indexed_In in Hin. apply nth_error_Some. congruence.
  - unfold reported in Hrep. simpl in Hrep.
    destruct (deadNames (importCountsOf i A files)); discriminate.
Qed.

(** The final value of a counter under a list of files B. *)
Lemma scanList_total a exportsA name l :
  forall counts n,
    get counts name = Some (Num n) ->
    get (fold_left (scanStep a exportsA) l counts) name
    = Some (Num (n + N.of_nat
                       (count_occ str_eq_dec exportsA name
                        * length (filter
                                    (fun jb => negb (Nat.eqb a (fst jb))
                                               && isImported name
                                                    (contents (snd jb)))
                                    l)))).
Proof.
  induction l as [|[j B] l IH]; intros counts n H; simpl.
  - rewrite H. do 2 f_equal. lia.
  - unfold scanStep at 2. simpl. destruct (Nat.eqb a j); simpl.
    + apply IH. assumption.
    + rewrite (IH _ _ (scanFile_get exportsA (contents B) counts name n H)).
      destruct (isImported name (contents B)); simpl; do 2 f_equal; lia.
Qed.

End ReportFacts.
Import ReportFacts.

(** X4: what a dead export is.  The report lists [name] under the file
    at position [i] exactly when the file exports [name] and the
    detector accepts the text of no file at another position. *)
Theorem dead_export_characterised :
  forall files i A name,
    Forall literal_exports files ->
    nth_error files i = Some A ->
    ((exists dead,
         JsMap.get (getFilesWithDeadExports files) i = Some dead /\
         In name dead)
     <->
     (In name (exports A) /\
      forall j B, j <> i -> nth_error files j = Some B ->
                  isImported name (contents B) = false)).
Proof.
  intros files i A name _ HA. split.
  - intros (dead & Hd & Hin). apply report_get in Hd.
    destruct Hd as (A' & HA' & _ & ->).
    assert (A' = A) by congruence. subst A'.
    apply deadNames_In in Hin. destruct Hin as [Hexp Hdead].
    split; [assumption|]. intros j B Hj HB.
    destruct (isImported name (contents B)) eqn:E; [|reflexivity].
    rewrite (counter_used files i j A B name HA HB (not_eq_sym Hj) Hexp E)
      in Hdead. discriminate.
  - intros [Hexp Hno].
    assert (D : In name (deadNames (importCountsOf i A files))).
    { apply deadNames_In. split; [assumption|].
      apply counter_unused; assumption. }
    exists (deadNames (importCountsOf i A files)). split; [|exact D].
    apply report_get. exists A. repeat split; [assumption|].
    intro E. rewrite E in D. destruct D.
Qed.

Lemma dead_export_characterised_witness :
  In (lit "foo") (exports file_a_foo_bar) /\
  forall j B, j <> 0 ->
    nth_error [file_a_foo_bar; file_b_imports_bar] j = Some B ->
    isImported (lit "foo") (contents B) = false.
Proof.
  apply (proj1 (dead_export_characterised
                  [file_a_foo_bar; file_b_imports_bar] 0 file_a_foo_bar
                  (lit "foo") ltac:(repeat constructor) eq_refl)).
  exists [lit "foo"]. split; [reflexivity | left; reflexivity].
Defined.

(** X5: a file without exports is never a key of the report, whatever
    the other files are. *)
Theorem no_exports_no_entry :
  forall files i A,
    nth_error files i = Some A ->
    exports A = [] ->
    JsMap.get (getFilesWithDeadExports files) i = None.
Proof.
  intros files i A HA He.
  destruct (JsMap.get (getFilesWithDeadExports files) i) as [dead|] eqn:G;
    [|reflexivity].
  apply report_get in G. destruct G as (A' & HA' & Hne & ->).
  assert (A' = A) by congruence. subst A'.
  destruct (deadNames (importCountsOf i A files)) as [|d ds] eqn:E;
    [congruence|].
  assert (Hin : In d (deadNames (importCountsOf i A files)))
    by (rewrite E; now left).
  apply deadNames_In in Hin. rewrite He in Hin. destruct Hin as [[] _].
Qed.

Lemma no_exports_no_entry_witness :
  JsMap.get (getFilesWithDeadExports [file_a_foo_bar; file_b_imports_bar]) 1
  = None.
Proof.
  apply (no_exports_no_entry
           [file_a_foo_bar; file_b_imports_bar] 1 file_b_imports_bar);
    reflexivity.
Defined.

(** X6: the shape of the report.  Its keys are positions of the input
    list, in ascending order (so each file has at most one entry and the
    entries follow the order of the files), and no entry has an empty
    list of names. *)
Theorem report_shape :
  forall files,
    StronglySorted lt (map fst (getFilesWithDeadExports files)) /\
    Forall (fun e => fst e < length files /\ snd e <> [])
           (getFilesWithDeadExports files) /\
    JsMap.size (getFilesWithDeadExports files) <= length files.
Proof.
  intro files.
  assert (K : map fst (getFilesWithDeadExports files)
              = map fst (filter (reported files) (indexed files))).
  { rewrite report_closed_form, map_map. reflexivity. }
  split; [|split].
  - rewrite K. apply map_fst_filter_indexed.
  - apply report_entries.
  - unfold JsMap.size. rewrite <- (length_map fst), K, length_map.
    etransitivity; [apply filter_length_le|].
    unfold indexed. rewrite length_combine, length_seq. lia.
Qed.

(** X7: the final value of a counter.  The counter of an exported name
    ends at the number of occurrences of the name in the exports of the
    file, times the number of other files whose text the detector
    accepts. *)
Theorem final_counter_value :
  forall files i A name,
    Forall literal_exports files ->
    nth_error files i = Some A ->
    In name (exports A) ->
    get (importCountsOf i A files) name
    = Some (Num (N.of_nat (count_occ str_eq_dec (exports A) name
                           * importers i name files))).
Proof.
  intros files i A name _ HA Hin.
  rewrite importCountsOf_eq. unfold importers.
  rewrite (scanList_total i (exports A) name (indexed files)
             (initCounts (exports A)) 0%N).
  - reflexivity.
  - rewrite initCounts_get. apply existsb_str in Hin. now rewrite Hin.
Qed.

Lemma final_counter_value_witness :
  get (importCountsOf 0 file_a_foo_twice
         [file_a_foo_twice; file_b_imports_foo; file_b_imports_foo])
      (lit "foo")
  = Some (Num 4).
Proof.
  apply (final_counter_value
           [file_a_foo_twice; file_b_imports_foo; file_b_imports_foo]
           0 file_a_foo_twice (lit "foo")).
  - repeat constructor.
  - reflexivity.
  - left. reflexivity.
Defined.

(** ** The export extractor *)

Module ExtractorFacts.

Lemma getExports_loop_spec fs files :
  forall acc,
    (forall result,
        getExports_loop fs files acc = Some result ->
        exists records,
          result = acc ++ records /\
          Forall2 (fun p F => path F = p /\ fs p = Some (contents F) /\
                              exports F = extract (contents F))
                  files records)
    /\ (getExports_loop fs files acc = None <->
        exists p, In p files /\ fs p = None).
Proof.
  induction files as [|p files IH]; intro acc; simpl.
  - split.
    + intros result H. inversion H; subst. exists [].
      rewrite app_nil_r. split; [reflexivity | constructor].
    + split; [discriminate | intros (p & [] & _)].
  - destruct (fs p) as [c|] eqn:E.
    + destruct (IH (acc ++ [mkFile p c (extract c)])) as [IH1 IH2]. split.
      * intros result H. destruct (IH1 result H) as (records & -> & HF).
        exists (mkFile p c (extract c) :: records). split.
        -- rewrite <- app_assoc. reflexivity.
        -- constructor; [simpl; auto | assumption].
      * rewrite IH2. split.
        -- intros (q & Hq & Hn). exists q. auto.
        -- intros (q & [<- | Hq] & Hn); [congruence | eauto].
    + split; [discriminate|]. split; [|reflexivity].
      intros _. exists p. auto.
Qed.

Lemma split_no_sep sep s piece :
  In piece (split sep s) -> ~ In sep piece.
Proof.
  revert piece. induction s as [|a s IH]; intro piece; simpl.
  - intros [<- | []] [].
  - destruct (char_eqb a sep) eqn:E.
    + intros [<- | H]; [intros [] | auto].
    + destruct (split sep s) as [|w ws] eqn:Es.
      * intros [<- | []] [-> | []]. rewrite char_eqb_refl in E. discriminate.
      * intros [<- | H].
        -- intros [-> | Hw]; [rewrite char_eqb_refl in E; discriminate|].
           apply (IH w); [now left | assumption].
        -- apply IH. now right.
Qed.

Lemma export_name_piece list_ statement n :
  In n (export_name list_ statement) ->
  In n list_ \/ (n <> [] /\ In n (split SPACE statement)).
Proof.
  unfold export_name, at_.
  destruct (Nat.eqb _ 0); [auto|].
  destruct (nth_error _ _) as [[|c res]|] eqn:E; auto.
  intro H. apply in_app_or in H. destruct H as [H | [<- | []]]; [auto|].
  right. split; [discriminate|]. apply nth_error_In in E. exact E.
Qed.

Lemma fold_export_name_piece statements :
  forall list_ n,
    In n (fold_left export_name statements list_) ->
    In n list_ \/
    (n <> [] /\ exists st, In st statements /\ In n (split SPACE st)).
Proof.
  induction statements as [|st sts IH]; intros list_ n H; simpl in H; auto.
  apply IH in H. destruct H as [H | (Hne & st' & Hin & Hc)].
  - apply export_name_piece in H. destruct H as [H | [Hne Hc]]; auto.
    right. split; [assumption|]. exists st. split; [now left | assumption].
  - right. split; [assumption|]. exists st'. split; [now right | assumption].
Qed.

Lemma export_pattern_prefix w :
  lang export_pattern w -> exists w', w = lit "export" ++ w'.
Proof.
  unfold export_pattern. intro H. apply lang_seq_inv in H.
  destruct H as (w1 & w2 & -> & H1 & _). apply lang_Str_inv in H1.
  subst. eauto.
Qed.

End ExtractorFacts.
Import ExtractorFacts.

(** X8: [getExports] returns one record per path, in the order of the
    paths (a path listed twice gives two records): the record has the
    path, the text read for it and the exports extracted from that
    text. *)
Theorem getExports_records :
  forall fs files result,
    getExports fs files = Some result ->
    Forall2 (fun p F => path F = p /\ fs p = Some (contents F) /\
                        exports F = extract (contents F))
            files result.
Proof.
  intros fs files result H.
  destruct (getExports_loop_spec fs files []) as [S _].
  destruct (S result H) as (records & -> & HF). exact HF.
Qed.

Lemma getExports_records_witness :
  Forall2 (fun p F => path F = p /\
                      (fun _ : str => Some (lit "export const a = 1")) p
                      = Some (contents F) /\
                      exports F = extract (contents F))
          [lit "x.ts"; lit "x.ts"]
          [mkFile (lit "x.ts") (lit "export const a = 1") [lit "a"];
           mkFile (lit "x.ts") (lit "export const a = 1") [lit "a"]].
Proof.
  apply (getExports_records
           (fun _ => Some (lit "export const a = 1"))
           [lit "x.ts"; lit "x.ts"]).
  reflexivity.
Defined.

(** X9: [getExports] is rejected exactly when the read of one of the
    paths is rejected; there is no partial result. *)
Theorem getExports_rejected_iff :
  forall fs files,
    getExports fs files = None <-> exists p, In p files /\ fs p = None.
Proof.
  intros fs files. apply (getExports_loop_spec fs files []).
Qed.

(** X10: a text without [export] has no exports: the result is the empty
    sequence, not an error. *)
Theorem no_export_keyword_no_exports :
  forall text,
    occurs (lit "export") text = false ->
    extract text = [].
Proof.
  intros text H. unfold extract.
  destruct (match_g export_pattern text) as [l|] eqn:E; [|reflexivity].
  exfalso.
  assert (S : exists l0, match_g export_pattern text = Some l0) by eauto.
  apply match_g_some in S. destruct S as (pre & w & rest & -> & Hw).
  apply export_pattern_prefix in Hw. destruct Hw as [w' ->].
  rewrite <- app_assoc, occurs_app in H. discriminate.
Qed.

Lemma no_export_keyword_no_exports_witness :
  extract (lit "import { bar } from './a'; bar()") = [].
Proof.
  apply (no_export_keyword_no_exports
           (lit "import { bar } from './a'; bar()")).
  reflexivity.
Defined.

(** X11: every extracted name is non-empty, has no space in it, and is
    made of word and white-space characters only; so it has none of the
    syntax characters of a pattern. *)
Theorem extracted_names_wellformed :
  forall text name,
    In name (extract text) ->
    name <> [] /\
    ~ In SPACE name /\
    forallb white_or_word name = true /\
    pattern_literal name = true.
Proof.
  intros text name H.
  destruct (extract_names text name H) as (Hne & Hw & Hl).
  repeat split; try assumption.
  unfold extract in H. apply fold_export_name_piece in H.
  destruct H as [[] | (_ & st & _ & Hp)].
  apply split_no_sep in Hp. exact Hp.
Qed.

Lemma extracted_names_wellformed_witness :
  lit "const" ++ [TAB] ++ lit "foo" <> [] /\
  ~ In SPACE (lit "const" ++ [TAB] ++ lit "foo") /\
  forallb white_or_word (lit "const" ++ [TAB] ++ lit "foo") = true /\
  pattern_literal (lit "const" ++ [TAB] ++ lit "foo") = true.
Proof.
  apply (extracted_names_wellformed
           (lit "export const" ++ [TAB] ++ lit "foo = 1")).
  left. reflexivity.
Defined.

(** ** What the extractor reads from a declaration *)

Module DeclarationFacts.

Lemma compile_Str s x c : compile (Str s) (s ++ x) c = c x.
Proof.
  induction s as [|a s IH]; simpl; [reflexivity|].
  rewrite char_eqb_refl. exact IH.
Qed.

(** A greedy run of a character class goes to the end of the run when
    the rest of the pattern accepts what follows. *)
Lemma more_chr_greedy p c z rest :
  stops p rest = true -> c rest = Some z ->
  forall run fuel,
    forallb p run = true ->
    length (run ++ rest) <= fuel ->
    more (compile (Chr p)) fuel (run ++ rest) c = Some z.
Proof.
  intros Hs Hc. induction run as [|a run IH]; intros fuel Hp Hf.
  - simpl app. destruct fuel as [|fuel]; simpl; [exact Hc|].
    destruct rest as [|ch rest]; [exact Hc|].
    simpl in Hs. apply negb_true_iff in Hs. rewrite Hs. exact Hc.
  - simpl in Hp. apply andb_true_iff in Hp. destruct Hp as [Ha Hp].
    destruct fuel as [|fuel]; [simpl in Hf; lia|].
    simpl. rewrite Ha.
    assert (L : (length (run ++ rest) <? S (length (run ++ rest))) = true)
      by (apply Nat.ltb_lt; lia).
    rewrite L, IH; [reflexivity | assumption | simpl in Hf; lia].
Qed.

Lemma compile_plus_chr_greedy p c z run rest :
  run <> [] -> forallb p run = true ->
  stops p rest = true -> c rest = Some z ->
  compile (Plus (Chr p)) (run ++ rest) c = Some z.
Proof.
  intros Hne Hp Hs Hc. destruct run as [|a run]; [congruence|].
  simpl in Hp. apply andb_true_iff in Hp. destruct Hp as [Ha Hp].
  simpl. rewrite Ha. apply more_chr_greedy; auto.
Qed.

(** On a stand-alone keyword the alternation hands over right after
    the keyword, and nowhere else. *)
Lemma alternatives_keyword kw x c :
  In kw declaration_keywords ->
  compile (alternatives export_keywords) (lit kw ++ x) c = c x.
Proof.
  intro H. simpl in H.
  repeat (destruct H as [<- | H]; [cbv; destruct (c x); reflexivity|]).
  destruct H.
Qed.

Lemma keyword_not_white kw x :
  In kw declaration_keywords -> stops white (lit kw ++ x) = true.
Proof.
  intro H. simpl in H.
  repeat (destruct H as [<- | H]; [reflexivity|]). destruct H.
Qed.

Lemma word_not_white c : word c = true -> white c = false.
Proof.
  unfold word, white. intro H.
  bool_to_prop; subst;
    repeat match goal with
      | |- context [(?a <=? ?b)%N] => destruct (N.leb_spec a b); try lia
      | |- context [(?a =? ?b)%N] => destruct (N.eqb_spec a b); try lia
      end; reflexivity.
Qed.

Lemma split_nonempty sep s : split sep s <> [].
Proof.
  destruct s as [|a s]; simpl; [discriminate|].
  destruct (char_eqb a sep); [discriminate|].
  destruct (split sep s); discriminate.
Qed.

Lemma split_app sep u v :
  split sep (u ++ sep :: v) = split sep u ++ split sep v.
Proof.
  induction u as [|a u IH]; simpl.
  - rewrite char_eqb_refl. reflexivity.
  - destruct (char_eqb a sep); [now rewrite IH|].
    rewrite IH. destruct (split sep u) as [|w ws] eqn:E.
    + exfalso. exact (split_nonempty sep u E).
    + reflexivity.
Qed.

Lemma split_none sep s : ~ In sep s -> split sep s = [s].
Proof.
  induction s as [|a s IH]; simpl; intro H; [reflexivity|].
  destruct (char_eqb a sep) eqn:E.
  - apply char_eqb_eq in E. subst. tauto.
  - rewrite IH by tauto. reflexivity.
Qed.

(** The reducer on a statement that ends with a space and a name. *)
Lemma export_name_last list_ u name :
  name <> [] -> ~ In SPACE name ->
  export_name list_ (u ++ SPACE :: name) = list_ ++ [name].
Proof.
  intros Hne Hs. unfold export_name, at_.
  rewrite split_app, (split_none SPACE name Hs), length_app. simpl.
  replace (length (split SPACE u) + 1 =? 0) with false
    by (symmetry; apply Nat.eqb_neq; lia).
  replace (length (split SPACE u) + 1 - 1) with (length (split SPACE u) + 0)
    by lia.
  rewrite nth_error_app2, Nat.add_comm by lia. simpl.
  rewrite Nat.sub_diag. simpl. destruct name; [congruence | reflexivity].
Qed.

Lemma fold_export_name_acc statements :
  forall list_,
    fold_left export_name statements list_
    = list_ ++ fold_left export_name statements [].
Proof.
  induction statements as [|st sts IH]; intro list_; simpl.
  - now rewrite app_nil_r.
  - rewrite (IH (export_name list_ st)), (IH (export_name [] st)).
    rewrite app_assoc. f_equal. unfold export_name.
    destruct (Nat.eqb _ 0); [now rewrite app_nil_r|].
    destruct (at_ _ _) as [[|c res]|]; now rewrite ?app_nil_r.
Qed.

Lemma extract_eq text :
  extract text
  = fold_left export_name
              (match_loop (S (length text)) export_pattern text) [].
Proof.
  unfold extract, match_g.
  destruct (match_loop (S (length text)) export_pattern text); reflexivity.
Qed.

Lemma exec_first r x mr : match_at r x = Some mr -> exec r x = Some mr.
Proof. intro H. destruct x; simpl; rewrite H; reflexivity. Qed.

Lemma word_no_space name : forallb word name = true -> ~ In SPACE name.
Proof.
  intros H Hin. rewrite forallb_forall in H. specialize (H _ Hin).
  discriminate H.
Qed.

Lemma compile_Str_seq s r x c :
  compile (Seq (Str s) r) (s ++ x) c = compile r x c.
Proof. simpl. apply compile_Str. Qed.

Lemma compile_plus_seq_greedy p r c z run rest :
  run <> [] -> forallb p run = true ->
  stops p rest = true -> compile r rest c = Some z ->
  compile (Seq (Plus (Chr p)) r) (run ++ rest) c = Some z.
Proof.
  intros. change (compile (Seq (Plus (Chr p)) r) (run ++ rest) c)
    with (compile (Plus (Chr p)) (run ++ rest) (fun y => compile r y c)).
  apply compile_plus_chr_greedy; auto.
Qed.

Lemma compile_alternatives_seq kw r x c :
  In kw declaration_keywords ->
  compile (Seq (alternatives export_keywords) r) (lit kw ++ x) c
  = compile r x c.
Proof.
  intro H.
  change (compile (Seq (alternatives export_keywords) r) (lit kw ++ x) c)
    with (compile (alternatives export_keywords) (lit kw ++ x)
                  (fun y => compile r y c)).
  now rewrite alternatives_keyword.
Qed.

(** The match of the export pattern at a declaration. *)
Lemma match_at_declaration kw sp1 sp2 name rest :
  In kw declaration_keywords ->
  sp1 <> [] -> forallb white sp1 = true ->
  sp2 <> [] -> forallb white sp2 = true ->
  name <> [] -> forallb word name = true ->
  stops word rest = true ->
  match_at export_pattern
           (lit "export" ++ sp1 ++ lit kw ++ sp2 ++ name ++ rest)
  = Some (lit "export" ++ sp1 ++ lit kw ++ sp2 ++ name, rest).
Proof.
  intros Hkw H1 W1 H2 W2 Hn Wn Hr.
  assert (C : compile export_pattern
                (lit "export" ++ sp1 ++ lit kw ++ sp2 ++ name ++ rest)
                (fun y => Some y) = Some rest).
  { unfold export_pattern. rewrite compile_Str_seq.
    apply compile_plus_seq_greedy; auto.
    { apply keyword_not_white. assumption. }
    rewrite compile_alternatives_seq by assumption.
    apply compile_plus_seq_greedy; auto.
    { destruct name as [|ch name]; [congruence|]. simpl in *.
      apply andb_true_iff in Wn. destruct Wn as [Wc _].
      rewrite (word_not_white ch Wc). reflexivity. }
    apply compile_plus_chr_greedy; auto. }
  unfold match_at. rewrite C. f_equal. f_equal.
  rewrite !app_assoc, length_app, Nat.add_sub, firstn_app, Nat.sub_diag.
  rewrite firstn_all. simpl. now rewrite app_nil_r.
Qed.

Lemma match_loop_step r x w rest fuel :
  exec r x = Some (w, rest) -> w <> [] ->
  match_loop (S fuel) r x = w :: match_loop fuel r rest.
Proof.
  intros H Hw. simpl. rewrite H. destruct w; [congruence | reflexivity].
Qed.

End DeclarationFacts.
Import DeclarationFacts.

(** X12: a declaration read in full.  On [export], a stand-alone
    declaration keyword and an identifier, separated by white space with
    a space right before the identifier, the extractor yields the
    identifier and goes on with the text after it. *)
Theorem declaration_extracted :
  forall kw sp1 sp2 name rest,
    In kw declaration_keywords ->
    sp1 <> [] -> forallb white sp1 = true ->
    forallb white sp2 = true ->
    name <> [] -> forallb word name = true ->
    stops word rest = true ->
    extract (lit "export" ++ sp1 ++ lit kw ++ (sp2 ++ [SPACE]) ++ name
               ++ rest)
    = name :: extract rest.
Proof.
  intros kw sp1 sp2 name rest Hkw H1 W1 W2 Hn Wn Hr.
  assert (M : match_at export_pattern
                (lit "export" ++ sp1 ++ lit kw ++ (sp2 ++ [SPACE]) ++ name
                   ++ rest)
              = Some (lit "export" ++ sp1 ++ lit kw ++ (sp2 ++ [SPACE])
                        ++ name, rest)).
  { apply match_at_declaration; auto.
    - destruct sp2; discriminate.
    - rewrite forallb_app, W2. reflexivity. }
  apply exec_first in M.
  rewrite !extract_eq.
  rewrite (match_loop_step _ _ _ _ _ M) by discriminate.
  cbn [fold_left].
  replace (lit "export" ++ sp1 ++ lit kw ++ (sp2 ++ [SPACE]) ++ name)
    with ((lit "export" ++ sp1 ++ lit kw ++ sp2) ++ SPACE :: name)
    by (rewrite <- !app_assoc; reflexivity).
  rewrite export_name_last by (auto using word_no_space).
  rewrite fold_export_name_acc. cbn [app]. f_equal. f_equal.
  apply match_loop_fuel; [|lia].
  rewrite !length_app. cbn [length]. lia.
Qed.

Lemma declaration_extracted_witness :
  extract (lit "export const foo = 1; export function bar() {}")
  = lit "foo" :: extract (lit " = 1; export function bar() {}").
Proof.
  apply (declaration_extracted
           "const"%string (lit " ") [] (lit "foo")
           (lit " = 1; export function bar() {}"));
    try reflexivity; try discriminate.
  simpl. auto.
Defined.

(** ** The directory walk *)

Module WalkFacts.

Section WithPaths.
Variable join : str -> str -> str.
Variable extname : str -> str.
Variable extensions ignore : list str.

Lemma getAllFiles_Dir home es :
  getAllFiles join extname home extensions ignore (Dir es)
  = walk join extname home extensions ignore es [].
Proof. reflexivity. Qed.

Lemma walk_cons home file n es paths :
  walk join extname home extensions ignore (Entry file n es) paths
  = match n with
    | Unknown => None
    | Dir _ | Unreadable =>
        if includes ignore file
        then walk join extname home extensions ignore es paths
        else match getAllFiles join extname (join home file)
                               extensions ignore n with
             | None => None
             | Some subFiles =>
                 walk join extname home extensions ignore es
                      (paths ++ subFiles)
             end
    | File =>
        if includes extensions (extname (join home file))
        then walk join extname home extensions ignore es
                  (paths ++ [join home file])
        else walk join extname home extensions ignore es paths
    end.
Proof. destruct n; reflexivity. Qed.

(** The paths pushed so far stay in front of what the loop adds. *)
Lemma walk_acc es :
  forall home paths,
    walk join extname home extensions ignore es paths
    = match walk join extname home extensions ignore es [] with
      | Some found_ => Some (paths ++ found_)
      | None => None
      end.
Proof.
  induction es as [|file n es IH]; intros home paths.
  - simpl. now rewrite app_nil_r.
  - rewrite !walk_cons.
    destruct n as [|sub| |].
    + destruct (includes extensions (extname (join home file))).
      * rewrite (IH home (paths ++ [join home file])),
                (IH home ([] ++ [join home file])).
        destruct (walk join extname home extensions ignore es []);
          [|reflexivity].
        now rewrite <- app_assoc.
      * apply IH.
    + destruct (includes ignore file); [apply IH|].
      destruct (getAllFiles join extname (join home file) extensions ignore
                            (Dir sub)) as [l|]; [|reflexivity].
      rewrite (IH home (paths ++ l)), (IH home ([] ++ l)).
      destruct (walk join extname home extensions ignore es []);
        [|reflexivity].
      now rewrite <- app_assoc.
    + destruct (includes ignore file); [apply IH | reflexivity].
    + reflexivity.
Qed.

(** One step of the loop, from the empty list. *)
Lemma walk_entry home file n es :
  walk join extname home extensions ignore (Entry file n es) []
  = match n with
    | Unknown => None
    | Dir _ | Unreadable =>
        if includes ignore file
        then walk join extname home extensions ignore es []
        else match getAllFiles join extname (join home file)
                               extensions ignore n,
                   walk join extname home extensions ignore es [] with
             | Some sub, Some rest => Some (sub ++ rest)
             | _, _ => None
             end
    | File =>
        match walk join extname home extensions ignore es [] with
        | Some rest =>
            Some (if includes extensions (extname (join home file))
                  then join home file :: rest else rest)
        | None => None
        end
    end.
Proof.
  rewrite walk_cons. destruct n as [|sub| |].
  - destruct (includes extensions (extname (join home file))).
    + rewrite walk_acc. reflexivity.
    + destruct (walk join extname home extensions ignore es []);
        reflexivity.
  - destruct (includes ignore file); [reflexivity|].
    destruct (getAllFiles join extname (join home file) extensions ignore
                          (Dir sub)); [|reflexivity].
    rewrite walk_acc. reflexivity.
  - destruct (includes ignore file); reflexivity.
  - reflexivity.
Qed.

Lemma walk_pruned :
  forall n home,
    getAllFiles join extname home extensions ignore n
    = getAllFiles join extname home extensions ignore (prune_node ignore n).
Proof.
  apply (fsnode_mut
    (fun n => forall home,
         getAllFiles join extname home extensions ignore n
         = getAllFiles join extname home extensions ignore
                       (prune_node ignore n))
    (fun es => forall home,
         walk join extname home extensions ignore es []
         = walk join extname home extensions ignore (prune ignore es) []));
    try reflexivity.
  - intros es IH home. cbn [prune_node]. rewrite !getAllFiles_Dir. apply IH.
  - intros file n IHn es IHes home. rewrite walk_entry. cbn [prune].
    destruct n as [|sub| |]; cbn [isDirectory andb].
    + rewrite walk_entry, (IHes home). reflexivity.
    + destruct (includes ignore file) eqn:E; [apply IHes|].
      rewrite walk_entry. cbn [prune_node]. rewrite E, (IHes home).
      rewrite (IHn (join home file)). reflexivity.
    + destruct (includes ignore file) eqn:E; [apply IHes|].
      rewrite walk_entry. cbn [prune_node]. rewrite E, (IHes home).
      reflexivity.
    + rewrite walk_entry. reflexivity.
Qed.

Lemma walk_rejected :
  forall n home,
    getAllFiles join extname home extensions ignore n = None
    <-> walkable (prune_node ignore n) = false.
Proof.
  apply (fsnode_mut
    (fun n => forall home,
         getAllFiles join extname home extensions ignore n = None
         <-> walkable (prune_node ignore n) = false)
    (fun es => forall home,
         walk join extname home extensions ignore es [] = None
         <-> answered (prune ignore es) = false));
    try (intros; simpl; tauto).
  - intros es IH home. cbn [prune_node walkable].
    rewrite getAllFiles_Dir. apply IH.
  - intros home. simpl. split; discriminate.
  - intros file n IHn es IHes home. rewrite walk_entry. cbn [prune].
    specialize (IHes home).
    destruct n as [|sub| |]; cbn [isDirectory andb].
    + cbn [answered answered_node andb].
      destruct (walk join extname home extensions ignore es []);
        [|tauto].
      rewrite <- IHes. split; discriminate.
    + destruct (includes ignore file) eqn:E; [exact IHes|].
      cbn [answered prune_node answered_node].
      specialize (IHn (join home file)). cbn [prune_node walkable] in IHn.
      destruct (getAllFiles join extname (join home file) extensions ignore
                            (Dir sub)).
      * destruct (answered (prune ignore sub));
          [|exfalso; destruct IHn as [_ IHn]; discriminate (IHn eq_refl)].
        destruct (walk join extname home extensions ignore es []);
          [|simpl; tauto].
        simpl. rewrite <- IHes. split; discriminate.
      * destruct IHn as [IHn _]. rewrite (IHn eq_refl). simpl. tauto.
    + destruct (includes ignore file) eqn:E; [exact IHes|].
      simpl. tauto.
    + simpl. tauto.
Qed.

Lemma walk_app es1 es2 home :
  walk join extname home extensions ignore (listing_app es1 es2) []
  = match walk join extname home extensions ignore es1 [],
          walk join extname home extensions ignore es2 [] with
    | Some a, Some b => Some (a ++ b)
    | _, _ => None
    end.
Proof.
  induction es1 as [|file n es1 IH]; cbn [listing_app].
  - simpl. destruct (walk join extname home extensions ignore es2 []);
      reflexivity.
  - rewrite !walk_entry, IH.
    destruct n as [|sub| |].
    + destruct (walk join extname home extensions ignore es1 []);
        [|reflexivity].
      destruct (walk join extname home extensions ignore es2 []);
        [|reflexivity].
      destruct (includes extensions (extname (join home file)));
        reflexivity.
    + destruct (includes ignore file); [reflexivity|].
      destruct (getAllFiles join extname (join home file) extensions ignore
                            (Dir sub)); [|reflexivity].
      destruct (walk join extname home extensions ignore es1 []);
        [|reflexivity].
      destruct (walk join extname home extensions ignore es2 []);
        [|reflexivity].
      now rewrite app_assoc.
    + destruct (includes ignore file); reflexivity.
    + reflexivity.
Qed.

Lemma found_entry home file n es p :
  found join ignore home (Entry file n es) p <->
  (n = File /\ p = join home file) \/
  (exists sub, n = Dir sub /\ includes ignore file = false /\
               found join ignore (join home file) sub p) \/
  found join ignore home es p.
Proof.
  split.
  - intro H. inversion H as [? ? f Hl|? ? d sub ? Hl Hi Hf]; subst.
    + destruct Hl as [[-> ->] | Hl]; [auto|].
      right. right. apply found_here. exact Hl.
    + destruct Hl as [[-> ->] | Hl]; [right; left; eauto|].
      right. right. eapply found_below; eassumption.
  - intros [[-> ->] | [(sub & -> & Hi & Hf) | H]].
    + apply found_here. left. auto.
    + eapply found_below; [left; split; reflexivity | exact Hi | exact Hf].
    + inversion H as [? ? f Hl|? ? d sub ? Hl Hi Hf]; subst.
      * apply found_here. right. exact Hl.
      * eapply found_below; [right; exact Hl | exact Hi | exact Hf].
Qed.

Lemma walk_members :
  forall n home paths p,
    getAllFiles join extname home extensions ignore n = Some paths ->
    (In p paths <->
     exists es, n = Dir es /\ found join ignore home es p /\
                includes extensions (extname p) = true).
Proof.
  apply (fsnode_mut
    (fun n => forall home paths p,
         getAllFiles join extname home extensions ignore n = Some paths ->
         (In p paths <->
          exists es, n = Dir es /\ found join ignore home es p /\
                     includes extensions (extname p) = true))
    (fun es => forall home paths p,
         walk join extname home extensions ignore es [] = Some paths ->
         (In p paths <->
          found join ignore home es p /\
          includes extensions (extname p) = true)));
    try (intros; discriminate).
  - intros es IH home paths p H. rewrite getAllFiles_Dir in H.
    rewrite (IH home paths p H). split.
    + intros [Hf He]. exists es. auto.
    + intros (es' & E & Hf & He). inversion E; subst. auto.
  - intros home paths p H. simpl in H. inversion H; subst. split.
    + intros [].
    + intros [Hf _]. inversion Hf as [? ? f Hl|? ? d sub ? Hl]; destruct Hl.
  - intros file n IHn es IHes home paths p H. rewrite walk_entry in H.
    rewrite found_entry.
    destruct n as [|sub| |].
    + destruct (walk join extname home extensions ignore es []) as [rest|]
        eqn:Er; [|discriminate].
      specialize (IHes home rest p Er).
      destruct (includes extensions (extname (join home file))) eqn:Ex;
        inversion H; subst; clear H.
      * simpl. rewrite IHes. split.
        -- intros [<- | [Hf He]]; [auto | tauto].
        -- intros [[[_ ->] | [(sub & E & _) | Hf]] He];
             [auto | discriminate | tauto].
      * rewrite IHes. split; [tauto|].
        intros [[[_ ->] | [(sub & E & _) | Hf]] He];
          [congruence | discriminate | tauto].
    + destruct (includes ignore file) eqn:Ei.
      * rewrite (IHes home paths p H). split; [tauto|].
        intros [[[E _] | [(sub' & _ & Hi & _) | Hf]] He];
          [discriminate | congruence | tauto].
      * destruct (getAllFiles join extname (join home file) extensions
                              ignore (Dir sub)) as [subFiles|] eqn:Es;
          [|discriminate].
        destruct (walk join extname home extensions ignore es [])
          as [rest|] eqn:Er; [|discriminate].
        inversion H; subst; clear H.
        specialize (IHes home rest p Er).
        specialize (IHn (join home file) subFiles p Es).
        rewrite in_app_iff, IHes, IHn. split.
        -- intros [(es' & E & Hf & He) | [Hf He]].
           ++ inversion E; subst. split; [|assumption].
              right. left. exists es'. auto.
           ++ tauto.
        -- intros [[[E _] | [(sub' & E & _ & Hf) | Hf]] He].
           ++ discriminate.
           ++ inversion E; subst. left. exists sub'. auto.
           ++ tauto.
    + destruct (includes ignore file) eqn:Ei; [|discriminate].
      rewrite (IHes home paths p H). split; [tauto|].
      intros [[[E _] | [(sub' & E & _) | Hf]] He];
        [discriminate | discriminate | tauto].
    + discriminate.
Qed.

End WithPaths.

End WalkFacts.

(** X13: the walk does not enter a directory whose name is in the ignore
    list: the result is that of the tree without these directories, so
    what they hold, and whether they can be read, does not matter.  The
    directory the walk starts from is not tested against the list. *)
Theorem ignored_directories_not_entered :
  forall join extname home extensions ignore n,
    getAllFiles join extname home extensions ignore n
    = getAllFiles join extname home extensions ignore (prune_node ignore n).
Proof.
  intros. apply WalkFacts.walk_pruned.
Qed.

(** X14: the walk is rejected exactly when the starting point is not a
    directory that can be read, or when, outside the ignored
    directories, a directory cannot be read or an entry cannot be
    examined.  There is no partial result. *)
Theorem walk_rejected_iff :
  forall join extname home extensions ignore n,
    getAllFiles join extname home extensions ignore n = None
    <-> walkable (prune_node ignore n) = false.
Proof.
  intros. apply WalkFacts.walk_rejected.
Qed.

(** X15: the walk follows the order of the listing: the result for a
    directory is the result for the first part of its listing followed by
    the result for the rest. *)
Theorem walk_follows_listing_order :
  forall join extname home extensions ignore es1 es2,
    getAllFiles join extname home extensions ignore
                (Dir (listing_app es1 es2))
    = match getAllFiles join extname home extensions ignore (Dir es1),
            getAllFiles join extname home extensions ignore (Dir es2) with
      | Some a, Some b => Some (a ++ b)
      | _, _ => None
      end.
Proof.
  intros. rewrite !WalkFacts.getAllFiles_Dir. apply WalkFacts.walk_app.
Qed.

(** X16: what the walk returns.  A path is in the result exactly when it
    is the joined path of an entry that is not a directory, reached
    through directories that are not ignored, and its extension is one
    of the given extensions. *)
Theorem walk_returns_exactly :
  forall join extname home extensions ignore es paths p,
    getAllFiles join extname home extensions ignore (Dir es) = Some paths ->
    (In p paths <->
     found join ignore home es p /\
     includes extensions (extname p) = true).
Proof.
  intros join extname home extensions ignore es paths p H.
  rewrite (WalkFacts.walk_members join extname extensions ignore
             (Dir es) home paths p H).
  split.
  - intros (es' & E & Hf & He). inversion E; subst. auto.
  - intros [Hf He]. exists es. auto.
Qed.

Lemma walk_returns_exactly_witness :
  In (lit "src/sub/b.ts") [lit "src/a.ts"; lit "src/sub/b.ts"] <->
  found example_join [lit "node_modules"] (lit "src") example_tree
        (lit "src/sub/b.ts") /\
  includes [lit ".ts"] (example_extname (lit "src/sub/b.ts")) = true.
Proof.
  apply (walk_returns_exactly
           example_join example_extname (lit "src") [lit ".ts"]
           [lit "node_modules"] example_tree
           [lit "src/a.ts"; lit "src/sub/b.ts"] (lit "src/sub/b.ts")).
  reflexivity.
Defined.

(** ** The command line *)

Module CommandLineFacts.

Lemma split_from_skip sep u :
  forall s cur,
    split_from sep (length u) cur (u ++ s) = split_from sep 0 cur s.
Proof.
  induction u as [|c u IH]; intros s cur; [reflexivity|]. simpl. apply IH.
Qed.

Lemma split_from_none sep s :
  forall cur,
    occurs sep s = false -> split_from sep 0 cur s = [cur ++ s].
Proof.
  induction s as [|c s IH]; intros cur H.
  - simpl. now rewrite app_nil_r.
  - simpl in H. apply orb_false_iff in H. destruct H as [H1 H2].
    cbn [split_from]. rewrite H1, (IH _ H2), <- app_assoc. reflexivity.
Qed.

(** The pieces of a text that starts with the separator. *)
Lemma split_from_prefix c sep' s :
  split_from (c :: sep') 0 [] ((c :: sep') ++ s)
  = [] :: split_from (c :: sep') 0 [] s.
Proof.
  cbn [app split_from].
  change (c :: sep' ++ s) with ((c :: sep') ++ s).
  rewrite starts_with_app.
  replace (length (c :: sep') - 1) with (length sep') by (simpl; lia).
  rewrite split_from_skip. reflexivity.
Qed.

(** The first piece ends at the first separator, or with the text. *)
Lemma split_from_first sep s :
  sep <> [] ->
  forall cur,
    exists piece pieces tail,
      split_from sep 0 cur s = (cur ++ piece) :: pieces /\
      s = piece ++ tail /\
      (tail = [] \/ starts_with sep tail = true).
Proof.
  intro Hsep. induction s as [|c s IH]; intro cur.
  - exists [], [], []. simpl. rewrite app_nil_r. auto.
  - cbn [split_from]. destruct (starts_with sep (c :: s)) eqn:E.
    + exists [], (split_from sep (length sep - 1) [] s), (c :: s).
      rewrite app_nil_r. auto.
    + destruct (IH (cur ++ [c])) as (piece & pieces & tail & H1 & H2 & H3).
      exists (c :: piece), pieces, tail. rewrite H1, <- app_assoc, H2.
      auto.
Qed.

Lemma starts_with_split prefix s :
  starts_with prefix s = true -> exists rest, s = prefix ++ rest.
Proof.
  revert s. induction prefix as [|a prefix IH]; intros s H.
  - exists s. reflexivity.
  - destruct s as [|b s]; [discriminate|]. simpl in H.
    apply andb_true_iff in H. destruct H as [H1 H2].
    apply char_eqb_eq in H1. subst.
    destruct (IH s H2) as [rest ->]. exists rest. reflexivity.
Qed.

(** A text that starts with the separator has a second piece. *)
Lemma second_piece sep arg :
  sep <> [] -> startsWith arg sep = true ->
  exists list_, nth_error (split_str sep arg) 1 = Some list_.
Proof.
  intros Hs H. destruct sep as [|c sep']; [congruence|].
  apply starts_with_split in H. destruct H as [rest ->].
  unfold split_str. rewrite split_from_prefix.
  destruct (split_from_first (c :: sep') rest ltac:(discriminate) [])
    as (piece & pieces & _ & H1 & _).
  exists piece.
  apply (f_equal (fun l => nth_error ([] :: l) 1)) in H1. exact H1.
Qed.

Lemma normalised_extension ext :
  startsWith (if startsWith (trim ext) (lit ".")
              then trim ext else lit "." ++ trim ext) (lit ".") = true.
Proof.
  destruct (startsWith (trim ext) (lit ".")) eqn:E; [exact E|].
  reflexivity.
Qed.

End CommandLineFacts.
Import CommandLineFacts.

(** X17: the directory of a [--path=] argument is read back as it was
    written, when it does not hold the text [--path=] itself. *)
Theorem path_argument_read_back :
  forall p,
    occurs PATH_ARG p = false ->
    basePathOf (PATH_ARG ++ p) = Some p.
Proof.
  intros p H.
  assert (E : PATH_ARG = 45%N :: lit "-path=") by reflexivity.
  unfold basePathOf. rewrite E in *. unfold split_str.
  rewrite split_from_prefix.
  pose proof (split_from_none _ p [] H) as S.
  apply (f_equal (fun l => nth_error ([] :: l) 1)) in S. exact S.
Qed.

Lemma path_argument_read_back_witness :
  basePathOf (lit "--path=/home/me/project/src")
  = Some (lit "/home/me/project/src").
Proof.
  apply (path_argument_read_back (lit "/home/me/project/src")).
  reflexivity.
Defined.



(** X19: the optional arguments are always parsed.  Every extension the
    walk is given starts with a dot, whether it comes from [--ext=],
    written with or without the dot, or from the default list. *)
Theorem optional_arguments_parsed :
  forall argv,
    exists extensions ignorePaths,
      extensionsOf argv = Some extensions /\
      ignorePathsOf argv = Some ignorePaths /\
      (forall ext, In ext extensions -> startsWith ext (lit ".") = true).
Proof.
  intro argv.
  assert (E : exists extensions,
             extensionsOf argv = Some extensions /\
             forall ext, In ext extensions ->
                         startsWith ext (lit ".") = true).
  { unfold extensionsOf.
    destruct (find (fun arg => startsWith arg EXT_ARG) argv) as [extArg|]
      eqn:Fe.
    - apply find_some in Fe. destruct Fe as [_ Fe].
      destruct (second_piece EXT_ARG extArg ltac:(discriminate) Fe)
        as [list_ He].
      rewrite He. eexists. split; [reflexivity|].
      intros ext H. apply in_map_iff in H. destruct H as (e & <- & _).
      apply normalised_extension.
    - eexists. split; [reflexivity|]. intros ext H. simpl in H.
      repeat (destruct H as [<- | H]; [reflexivity|]). destruct H. }
  assert (I : exists ignorePaths, ignorePathsOf argv = Some ignorePaths).
  { unfold ignorePathsOf.
    destruct (find (fun arg => startsWith arg IGNORE_ARG) argv)
      as [ignoreArg|] eqn:Fi.
    - apply find_some in Fi. destruct Fi as [_ Fi].
      destruct (second_piece IGNORE_ARG ignoreArg ltac:(discriminate) Fi)
        as [list_ Hi].
      rewrite Hi. eexists. reflexivity.
    - eexists. reflexivity. }
  destruct E as (extensions & He & Hd). destruct I as (ignorePaths & Hi).
  exists extensions, ignorePaths. auto.
Qed.

(** ** The runs of [main] *)

Module MainFacts.

Lemma find_none_iff {A} (f : A -> bool) l :
  find f l = None <-> forall x, In x l -> f x = false.
Proof.
  split; [apply find_none|]. intro H.
  destruct (find f l) as [x|] eqn:E; [|reflexivity].
  apply find_some in E. destruct E as [Hin Hx].
  rewrite (H x Hin) in Hx. discriminate.
Qed.

Lemma Forall2_nth {A B} (R : A -> B -> Prop) l1 l2 :
  Forall2 R l1 l2 ->
  forall i y, nth_error l2 i = Some y ->
    exists x, nth_error l1 i = Some x /\ R x y.
Proof.
  induction 1 as [|x y l1 l2 HR HF IH]; intros i z Hz.
  - destruct i; discriminate.
  - destruct i as [|i]; simpl in *.
    + inversion Hz; subst. eauto.
    + apply IH. assumption.
Qed.

(** The line of a path in the output comes from an entry of the
    report. *)
Lemma path_line files report p :
  In [VString (lit "Path:"); VString p] (printReport files report) ->
  exists file dead,
    In (file, dead) report /\
    p = match nth_error files file with
        | Some f => path f
        | None => []
        end.
Proof.
  unfold printReport. intro H. apply in_app_or in H.
  destruct H as [H | [H | []]]; [|discriminate H].
  apply in_flat_map in H. destruct H as ([index [file dead]] & Hin & Hl).
  simpl in Hl.
  destruct Hl as [Hl | [Hl | [Hl | [Hl | []]]]]; try discriminate Hl.
  inversion Hl; subst. exists file, dead. split; [|reflexivity].
  unfold indexed in Hin. apply in_combine_r in Hin. exact Hin.
Qed.

End MainFacts.
Import MainFacts.

(** X20: the two errors of [main].  It throws [No path argument
    provided] exactly when no argument starts with [--path=], and [Path
    is not a directory] exactly when the directory of the first such
    argument is something else than a directory; it throws nothing
    else, and both tests come before the tree is walked or a file is
    read. *)
Theorem main_errors :
  forall join extname argv lstat readFile,
    (main join extname argv lstat readFile
     = Threw (lit "No path argument provided")
     <-> forall arg, In arg argv -> startsWith arg PATH_ARG = false)
    /\ (main join extname argv lstat readFile
        = Threw (lit "Path is not a directory")
        <-> exists pathArg basePath,
              find (fun arg => startsWith arg PATH_ARG) argv = Some pathArg /\
              basePathOf pathArg = Some basePath /\
              lstat basePath = File)
    /\ forall message,
         main join extname argv lstat readFile = Threw message ->
         message = lit "No path argument provided" \/
         message = lit "Path is not a directory".
Proof.
  intros join extname argv lstat readFile.
  rewrite <- (find_none_iff (fun arg => startsWith arg PATH_ARG) argv).
  unfold main.
  destruct (find (fun arg => startsWith arg PATH_ARG) argv) as [pathArg|]
    eqn:F.
  2:{ split; [tauto|]. split.
      - split; [discriminate | intros (a & b & Ha & _); discriminate Ha].
      - intros message H. inversion H. auto. }
  destruct (basePathOf pathArg) as [basePath|] eqn:B.
  2:{ split; [split; discriminate|]. split.
      - split; [discriminate|].
        intros (a & b & Ha & Hb & _). inversion Ha; subst. congruence.
      - discriminate. }
  destruct (lstat basePath) as [|es| |] eqn:L; cbn [isDirectory negb].
  - split; [split; discriminate|]. split.
    + split; [|reflexivity]. intros _. exists pathArg, basePath. auto.
    + intros message H. inversion H. auto.
  - match goal with
    | |- (?o = _ <-> _) /\ _ => remember o as result eqn:Eo
    end.
    assert (R : exists r, result = Rejected \/ result = Printed r).
    { subst result.
      destruct (extensionsOf argv) as [extensions|];
        [|exists []; auto].
      destruct (ignorePathsOf argv) as [ignorePaths|];
        [|exists []; auto].
      destruct (getAllFiles join extname basePath extensions ignorePaths
                            (Dir es)) as [files|]; [|exists []; auto].
      destruct (getExports readFile files) as [records|];
        [|exists []; auto].
      eexists. right. reflexivity. }
    clear Eo. destruct R as [r [R | R]]; rewrite R;
      (split; [split; discriminate|]; split; [|discriminate];
       split; [discriminate|];
       intros (a & b & Ha & Hb & Hc); inversion Ha; subst;
       rewrite Hb in B; inversion B; subst; congruence).
  - match goal with
    | |- (?o = _ <-> _) /\ _ => remember o as result eqn:Eo
    end.
    assert (R : result = Rejected).
    { subst result.
      destruct (extensionsOf argv); [|reflexivity].
      destruct (ignorePathsOf argv); reflexivity. }
    clear Eo. rewrite R.
    split; [split; discriminate|]. split; [|discriminate].
    split; [discriminate|].
    intros (a & b & Ha & Hb & Hc). inversion Ha; subst.
    rewrite Hb in B. inversion B; subst. congruence.
  - split; [split; discriminate|]. split; [|discriminate].
    split; [discriminate|].
    intros (a & b & Ha & Hb & Hc). inversion Ha; subst. congruence.
Qed.

(** X21: the stages of [main] composed.  A path printed in the report
    is a path the walk returned for the directory of the [--path=]
    argument: its extension is one of the configured extensions and its
    text was read. *)
Theorem printed_paths_were_walked :
  forall join extname argv lstat readFile out p,
    main join extname argv lstat readFile = Printed out ->
    In [VString (lit "Path:"); VString p] out ->
    exists pathArg basePath extensions ignorePaths files,
      find (fun arg => startsWith arg PATH_ARG) argv = Some pathArg /\
      basePathOf pathArg = Some basePath /\
      extensionsOf argv = Some extensions /\
      ignorePathsOf argv = Some ignorePaths /\
      getAllFiles join extname basePath extensions ignorePaths
                  (lstat basePath) = Some files /\
      In p files /\
      includes extensions (extname p) = true /\
      readFile p <> None.
Proof.
  intros join extname argv lstat readFile out p H Hline.
  unfold main in H.
  destruct (find (fun arg => startsWith arg PATH_ARG) argv) as [pathArg|]
    eqn:Fd; [|discriminate].
  destruct (basePathOf pathArg) as [basePath|] eqn:Bp; [|discriminate].
  destruct (lstat basePath) as [|es| |] eqn:L; cbn [isDirectory negb] in H;
    try discriminate.
  2:{ destruct (extensionsOf argv); [|discriminate].
      destruct (ignorePathsOf argv); discriminate. }
  destruct (extensionsOf argv) as [extensions|]; [|discriminate].
  destruct (ignorePathsOf argv) as [ignorePaths|]; [|discriminate].
  destruct (getAllFiles join extname basePath extensions ignorePaths
                        (Dir es)) as [files|] eqn:W; [|discriminate].
  destruct (getExports readFile files) as [records|] eqn:G; [|discriminate].
  inversion H; subst out; clear H.
  apply path_line in Hline. destruct Hline as (file & dead & Hin & ->).
  pose proof (report_entries records) as V.
  rewrite Forall_forall in V. destruct (V _ Hin) as [Hlt _].
  simpl in Hlt. apply nth_error_Some in Hlt.
  destruct (nth_error records file) as [F|] eqn:EF; [|congruence].
  destruct (getExports_loop_spec readFile files []) as [S _].
  destruct (S records G) as (records' & E' & HF). simpl in E'.
  subst records'.
  destruct (Forall2_nth _ _ _ HF file F EF) as (q & Hq & Hp & Hr & _).
  subst q. apply nth_error_In in Hq.
  exists pathArg, basePath, extensions, ignorePaths, files.
  split; [reflexivity|]. split; [assumption|].
  split; [reflexivity|]. split; [reflexivity|].
  split; [rewrite L; exact W|]. split; [exact Hq|]. split.
  - apply (WalkFacts.walk_members join extname extensions ignorePaths
             (Dir es) basePath files (path F) W) in Hq.
    destruct Hq as (_ & _ & _ & He). exact He.
  - rewrite Hr. discriminate.
Qed.

Lemma printed_paths_were_walked_witness :
  exists pathArg basePath extensions ignorePaths files,
    find (fun arg => startsWith arg PATH_ARG)
         [lit "node"; lit "index.js"; lit "--path=src"] = Some pathArg /\
    basePathOf pathArg = Some basePath /\
    extensionsOf [lit "node"; lit "index.js"; lit "--path=src"]
    = Some extensions /\
    ignorePathsOf [lit "node"; lit "index.js"; lit "--path=src"]
    = Some ignorePaths /\
    getAllFiles example_join example_extname basePath extensions ignorePaths
                ((fun _ => Dir example_tree) basePath) = Some files /\
    In (lit "src/a.ts") files /\
    includes extensions (example_extname (lit "src/a.ts")) = true /\
    (fun _ : str => Some (lit "export const a = 1")) (lit "src/a.ts") <> None.
Proof.
  apply (printed_paths_were_walked
           example_join example_extname
           [lit "node"; lit "index.js"; lit "--path=src"]
           (fun _ => Dir example_tree)
           (fun _ => Some (lit "export const a = 1"))
           (printReport
              [mkFile (lit "src/a.ts") (lit "export const a = 1") [lit "a"];
               mkFile (lit "src/sub/b.ts") (lit "export const a = 1")
                      [lit "a"]]
              [(0, [lit "a"]); (1, [lit "a"])])
           (lit "src/a.ts")).
  - reflexivity.
  - right. left. reflexivity.
Defined.

(** ** The output *)

Module OutputFacts.

Lemma printReport_eq files report :
  printReport files report
  = flat_map (entryLines files) (indexed report)
    ++ [[VString (lit "Total files with dead exports:");
         VNumber (JsMap.size report)]].
Proof. reflexivity. Qed.

Lemma blocks_length files (l : list (nat * (JsMap.ident * list str))) :
  length (flat_map (entryLines files) l) = 4 * length l.
Proof.
  induction l as [|x l IH]; [reflexivity|].
  cbn [flat_map]. rewrite length_app, IH. simpl. lia.
Qed.

Lemma blocks_nth files (l : list (JsMap.ident * list str)) :
  forall s k e j,
    nth_error l k = Some e -> j < 4 ->
    nth_error (flat_map (entryLines files) (combine (seq s (length l)) l))
              (4 * k + j)
    = nth_error (entryLines files (s + k, e)) j.
Proof.
  induction l as [|x l IH]; intros s k e j Hk Hj.
  - destruct k; discriminate.
  - cbn [length seq combine flat_map]. destruct k as [|k].
    + simpl in Hk. inversion Hk; subst.
      rewrite nth_error_app1 by (simpl; lia).
      rewrite Nat.add_0_r. reflexivity.
    + simpl in Hk. rewrite nth_error_app2 by (simpl; lia).
      replace (4 * S k + j - length (entryLines files (s, x)))
        with (4 * k + j) by (simpl; lia).
      rewrite (IH (S s) k e j Hk Hj). do 2 f_equal.
      f_equal. lia.
Qed.

End OutputFacts.
Import OutputFacts.

(** X22: the output for a report.  Four calls of [console.log] per
    entry and one more at the end; the entries are numbered from 1 in
    the order of the report; the total of an entry is the number of its
    names; the last call gives the number of entries. *)
Theorem output_of_report :
  forall files report,
    length (printReport files report) = 4 * JsMap.size report + 1 /\
    nth_error (printReport files report) (4 * JsMap.size report)
    = Some [VString (lit "Total files with dead exports:");
            VNumber (JsMap.size report)] /\
    forall k file dead,
      nth_error report k = Some (file, dead) ->
      nth_error (printReport files report) (4 * k)
      = Some [VString (lit "File #" ++ decimal (k + 1))] /\
      nth_error (printReport files report) (4 * k + 2)
      = Some [VString (lit "Dead exports:"); VArray dead] /\
      nth_error (printReport files report) (4 * k + 3)
      = Some [VString (lit "Total:"); VNumber (length dead); VString [LF]].
Proof.
  intros files report. rewrite printReport_eq.
  assert (L : length (flat_map (entryLines files) (indexed report))
              = 4 * JsMap.size report).
  { rewrite blocks_length. unfold indexed, JsMap.size.
    rewrite length_combine, length_seq. lia. }
  split; [|split].
  - rewrite length_app, L. simpl. lia.
  - rewrite nth_error_app2 by lia. rewrite L, Nat.sub_diag. reflexivity.
  - intros k file dead Hk.
    assert (Hlt : k < JsMap.size report)
      by (apply nth_error_Some; congruence).
    repeat split.
    + rewrite nth_error_app1 by (rewrite L; lia).
      replace (4 * k) with (4 * k + 0) by lia. unfold indexed.
      rewrite (blocks_nth files report 0 k (file, dead) 0 Hk) by lia.
      reflexivity.
    + rewrite nth_error_app1 by (rewrite L; lia). unfold indexed.
      rewrite (blocks_nth files report 0 k (file, dead) 2 Hk) by lia.
      reflexivity.
    + rewrite nth_error_app1 by (rewrite L; lia). unfold indexed.
      rewrite (blocks_nth files report 0 k (file, dead) 3 Hk) by lia.
      reflexivity.
Qed.

(** ** More on the counters and on the other files *)

Module MoreEngineFacts.

Lemma scan_contents a exportsA :
  forall (l l' : list FileDetails) s counts,
    length l' = length l ->
    (forall j, s + j <> a ->
               option_map contents (nth_error l' j)
               = option_map contents (nth_error l j)) ->
    fold_left (scanStep a exportsA) (combine (seq s (length l')) l') counts
    = fold_left (scanStep a exportsA) (combine (seq s (length l)) l) counts.
Proof.
  induction l as [|B l IH]; intros [|B' l'] s counts L H;
    try discriminate L; [reflexivity|]. simpl.
  simpl in L. injection L as L.
  assert (E : scanStep a exportsA counts (s, B')
              = scanStep a exportsA counts (s, B)).
  { unfold scanStep. simpl. destruct (Nat.eqb_spec a s) as [->|Hne];
      [reflexivity|].
    assert (H0 : option_map contents (nth_error (B' :: l') 0)
                 = option_map contents (nth_error (B :: l) 0))
      by (apply H; lia).
    simpl in H0. inversion H0 as [H1]. rewrite H1. reflexivity. }
  rewrite E. apply IH; [assumption|].
  intros j Hj. apply (H (S j)). lia.
Qed.

End MoreEngineFacts.
Import MoreEngineFacts.

(** X23: the counters of a file.  Their keys are the exported names of
    the file, each once; scanning the other files neither adds a key nor
    moves one; every counter starts at zero. *)
Theorem counters_keep_their_keys :
  forall files i A name,
    (In name (keys (importCountsOf i A files)) <-> In name (exports A)) /\
    NoDup (keys (importCountsOf i A files)) /\
    keys (importCountsOf i A files) = keys (initCounts (exports A)) /\
    get (initCounts (exports A)) name
    = if in_dec str_eq_dec name (exports A) then Some (Num 0) else None.
Proof.
  intros files i A name.
  rewrite importCountsOf_keys. repeat split.
  - apply initCounts_keys.
  - apply initCounts_keys.
  - apply canon_NoDup, initCounts_canon.
  - rewrite initCounts_get.
    destruct (in_dec str_eq_dec name (exports A)) as [Hin|Hn].
    + apply existsb_str in Hin. now rewrite Hin.
    + destruct (existsb (str_eqb name) (exports A)) eqn:E; [|reflexivity].
      apply existsb_str in E. contradiction.
Qed.

(** X24: the entry of a file depends on the other files through their
    texts alone: their paths and their exports do not matter. *)
Theorem other_files_count_by_text_only :
  forall files files' i A,
    length files' = length files ->
    nth_error files i = Some A ->
    nth_error files' i = Some A ->
    (forall j, j <> i ->
               option_map contents (nth_error files' j)
               = option_map contents (nth_error files j)) ->
    JsMap.get (getFilesWithDeadExports files') i
    = JsMap.get (getFilesWithDeadExports files) i.
Proof.
  intros files files' i A L HA HA' H.
  rewrite (report_get_eq files' i A HA'), (report_get_eq files i A HA).
  rewrite !importCountsOf_eq. unfold indexed.
  rewrite (scan_contents i (exports A) files files' 0
             (initCounts (exports A)) L); [reflexivity|].
  intros j Hj. apply H. lia.
Qed.

Lemma other_files_count_by_text_only_witness :
  JsMap.get (getFilesWithDeadExports
               [file_a_foo_bar;
                mkFile (lit "other.ts") (contents file_b_imports_bar)
                       [lit "unrelated"]]) 0
  = JsMap.get (getFilesWithDeadExports [file_a_foo_bar; file_b_imports_bar])
              0.
Proof.
  apply (other_files_count_by_text_only
           [file_a_foo_bar; file_b_imports_bar]
           [file_a_foo_bar;
            mkFile (lit "other.ts") (contents file_b_imports_bar)
                   [lit "unrelated"]]
           0 file_a_foo_bar); try reflexivity.
  intros j Hj. destruct j as [|[|j]]; [congruence | reflexivity|].
  destruct j; reflexivity.
Defined.

Lemma output_of_report_witness :
  nth_error (printReport [] [(0, [lit "a"]); (1, [lit "b"; lit "c"])]) 4
  = Some [VString (lit "File #2")] /\
  nth_error (printReport [] [(0, [lit "a"]); (1, [lit "b"; lit "c"])]) 7
  = Some [VString (lit "Total:"); VNumber 2; VString [LF]].
Proof.
  destruct (output_of_report [] [(0, [lit "a"]); (1, [lit "b"; lit "c"])])
    as (_ & _ & H).
  destruct (H 1 1 [lit "b"; lit "c"] eq_refl) as (H1 & _ & H3).
  split; [exact H1 | exact H3].
Defined.
